(** * makei: the build environment of ibmi-bob

    A shallow embedding of [makei/const.py] and [makei/build.py] and the
    properties of the build-variable resolution that follow from the code.

    Python [str] values are Rocq [string]s (characters in the Latin-1
    range), [pathlib] paths are records of an anchor flag and the list of
    their segments, dictionaries are [gmap]s, and a statement that can
    raise returns [option] ([None] stands for the exception). *)

From Stdlib Require Import String Ascii List.
From stdpp Require Import gmap strings list sorting.

Open Scope string_scope.

(** ** Python string methods used by the build module *)

Module PyStr.

Definition tab : ascii := "009"%char.
Definition nl : ascii := "010"%char.
Definition cr : ascii := "013"%char.
Definition dquote : ascii := "034"%char.

Definition chr (c : ascii) : string := String c EmptyString.

(** [str.isspace] on one character below 256: TAB..CR, FS..US, space,
    NEL and the no-break space. *)
Definition isspace (c : ascii) : bool :=
  let n := nat_of_ascii c in
  ((9 <=? n) && (n <=? 13) || (28 <=? n) && (n <=? 32)
   || (n =? 133) || (n =? 160))%nat.

(** [s.rstrip()]: drop the longest all-whitespace suffix. *)
Fixpoint rstrip (s : string) : string :=
  match s with
  | EmptyString => EmptyString
  | String c s' =>
      match rstrip s' with
      | EmptyString => if isspace c then EmptyString else chr c
      | t => String c t
      end
  end.

(** [s.startswith(pre)] and its tuple form [s.startswith((p1, p2))]. *)
Definition startswith (s pre : string) : bool := String.prefix pre s.

Definition startswith_any (s : string) (pres : list string) : bool :=
  existsb (startswith s) pres.

Fixpoint endswith_go (n : nat) (s suf : string) : bool :=
  match n, s with
  | O, _ => String.eqb s suf
  | S k, String _ s' => endswith_go k s' suf
  | S _, EmptyString => false
  end.

(** [s.endswith(suf)]. *)
Definition endswith (s suf : string) : bool :=
  endswith_go (String.length s - String.length suf) s suf.

(** [needle in hay]: substring test. *)
Fixpoint str_in (needle hay : string) : bool :=
  String.prefix needle hay ||
  match hay with
  | EmptyString => false
  | String _ h => str_in needle h
  end.

(** [s.split(sep)] for a one-character separator; the result is never
    empty. *)
Fixpoint split (sep : ascii) (s : string) : list string :=
  match s with
  | EmptyString => [EmptyString]
  | String c s' =>
      if Ascii.eqb c sep then EmptyString :: split sep s'
      else match split sep s' with
           | h :: t => String c h :: t
           | [] => [chr c]
           end
  end.

(** [l[0]] on a list of strings. *)
Definition item0 (l : list string) : string := hd EmptyString l.

(** [sep.join(l)]. *)
Definition join (sep : string) (l : list string) : string :=
  String.concat sep l.

Fixpoint interleave (new s : string) : string :=
  match s with
  | EmptyString => new
  | String c s' => new ++ String c (interleave new s')
  end.

(** The scan of [str.replace] for a non-empty [old]: left to right, an
    occurrence found at the current position is replaced and the scan
    resumes behind it ([skip] counts the characters of the occurrence
    still to be passed over). *)
Fixpoint replace_scan (old new : string) (skip : nat) (s : string) : string :=
  match s with
  | EmptyString => EmptyString
  | String c s' =>
      match skip with
      | S k => replace_scan old new k s'
      | O =>
          if String.prefix old s
          then new ++ replace_scan old new (String.length old - 1) s'
          else String c (replace_scan old new 0 s')
      end
  end.

(** [s.replace(old, new)]. *)
Definition replace (s old new : string) : string :=
  match old with
  | EmptyString => interleave new s
  | _ => replace_scan old new 0 s
  end.

(** Text-mode reading with universal newlines: CR LF and a lone CR
    both arrive as LF. *)
Fixpoint universal_newlines (s : string) : string :=
  match s with
  | EmptyString => EmptyString
  | String c s' =>
      if Ascii.eqb c cr then
        match s' with
        | String c' s'' =>
            if Ascii.eqb c' nl then String nl (universal_newlines s'')
            else String nl (universal_newlines s')
        | EmptyString => chr nl
        end
      else String c (universal_newlines s')
  end.

(** Cut a text after every LF, keeping the LF with its line. *)
Fixpoint lines_keepends (s : string) : list string :=
  match s with
  | EmptyString => []
  | String c s' =>
      if Ascii.eqb c nl then chr c :: lines_keepends s'
      else match lines_keepends s' with
           | l :: ls => String c l :: ls
           | [] => [chr c]
           end
  end.

(** [file.readlines()] of a file opened in text mode. *)
Definition readlines (content : string) : list string :=
  lines_keepends (universal_newlines content).

(** *** Vocabulary for stating what the methods compute *)

(** The character [c] occurs in [s]. *)
Fixpoint has_char (c : ascii) (s : string) : Prop :=
  match s with
  | EmptyString => False
  | String x s' => x = c ∨ has_char c s'
  end.

Definition all_space (s : string) : Prop :=
  ∀ c, has_char c s → isspace c = true.

Definition ends_nonspace (s : string) : Prop :=
  ∀ t c, s = t ++ chr c → isspace c = false.


(** How often the character [c] occurs in [s]. *)
Fixpoint count_char (c : ascii) (s : string) : nat :=
  match s with
  | EmptyString => 0
  | String x s' => (if Ascii.eqb x c then 1 else 0) + count_char c s'
  end.

(** The text with every line feed preceded by a carriage return. *)
Fixpoint to_crlf (s : string) : string :=
  match s with
  | EmptyString => EmptyString
  | String x s' =>
      if Ascii.eqb x nl then String cr (String nl (to_crlf s'))
      else String x (to_crlf s')
  end.

End PyStr.

(** ** pathlib paths *)

Module PyPath.

(** A pure POSIX path: whether it starts at the root, and its segments.
    [Path(".")] is the relative path without segments. *)
Record Path := mkPath { anchored : bool; segs : list string }.

#[global] Instance Path_eq_dec : EqDecision Path.
Proof. solve_decision. Defined.

#[global] Instance Path_countable : Countable Path :=
  inj_countable' (λ p, (anchored p, segs p)) (λ t, mkPath t.1 t.2)
                 (λ p, match p with mkPath _ _ => eq_refl end).

Definition dot : Path := mkPath false [].

(** [p.parts]: the root counts as a part. *)
Definition parts (p : Path) : list string :=
  (if anchored p then ["/"] else []) ++ segs p.

(** [len(p.parts)]. *)
Definition nparts (p : Path) : nat := length (parts p).

(** [str(p)]. *)
Definition path_str (p : Path) : string :=
  if anchored p then "/" ++ PyStr.join "/" (segs p)
  else match segs p with
       | [] => "."
       | _ => PyStr.join "/" (segs p)
       end.

(** [p / name] for a one-segment relative [name]. *)
Definition joinpath (p : Path) (name : string) : Path :=
  mkPath (anchored p) (segs p ++ [name]).

(** [p.parents[0]]; [None] is the IndexError of a path without segments. *)
Definition parent0 (p : Path) : option Path :=
  match segs p with
  | [] => None
  | _ => Some (mkPath (anchored p) (removelast (segs p)))
  end.

(** [p.name]. *)
Definition name (p : Path) : string := List.last (segs p) "".

(** [p.absolute()] in the working directory [cwd]. *)
Definition absolute (cwd p : Path) : Path :=
  if anchored p then p else mkPath true (segs cwd ++ segs p).

Fixpoint strip_prefix (pre l : list string) : option (list string) :=
  match pre, l with
  | [], _ => Some l
  | a :: pre', b :: l' => if String.eqb a b then strip_prefix pre' l' else None
  | _ :: _, [] => None
  end.

(** One file of the tree as [start.rglob(pattern)] yields it: [file] (an
    absolute path) lies below [start] and its name matches the pattern;
    the path yielded begins with [start]. *)
Definition rglob_hit (cwd start : Path) (matches : string → bool)
    (file : Path) : option Path :=
  if anchored file then
    match strip_prefix (segs (absolute cwd start)) (segs file) with
    | Some (s :: rest) =>
        if matches (name file)
        then Some (mkPath (anchored start) (segs start ++ s :: rest))
        else None
    | _ => None
    end
  else None.

End PyPath.

(** ** makei/const.py *)

Module Const.

Definition DEFAULT_TGT_CCSID : string := "*JOB".
Definition DEFAULT_OBJLIB : string := "*CURLIB".
Definition DEFAULT_CURLIB : string := "*CRTDFT".

(** A dictionary display [{k1: v1, k2: v2, ...}]: the items are entered
    from left to right, a repeated key keeps its last value. *)
Definition dict_display (items : list (string * string)) : gmap string string :=
  foldl (λ d kv, <[kv.1 := kv.2]> d) ∅ items.

Definition TARGET_GROUPS : list string :=
  ["TRG"; "DTA"; "SQL"; "BNDD"; "PF"; "LF"; "DSPF"; "PRTF"; "CMD"; "SQL";
   "MODULE"; "SRVPGM"; "PGM"; "MENU"; "PNLGRP"; "QMQRY"; "WSCST"; "MSG"].

Definition FILE_TARGETGROUPS_MAPPING : gmap string string :=
  dict_display
    [("PGM.SQLRPGLE", "PGM"); ("PGM.RPGLE", "PGM"); ("PGM.CLLE", "PGM");
     ("PGM.C", "PGM"); ("CMDSRC", "CMD"); ("DSPF", "DSPF"); ("LF", "LF");
     ("PF", "PF"); ("PRTF", "PRTF"); ("FILE", "PF"); ("MENUSRC", "MENU");
     ("C", "MODULE"); ("RPGLE", "MODULE"); ("CLLE", "MODULE");
     ("SQLC", "MODULE"); ("SQLRPGLE", "MODULE"); ("MODULE", "PGM");
     ("CBL", "PGM"); ("CBLLE", "PGM"); ("RPG", "PGM"); ("ILEPGM", "PGM");
     ("PNLGRPSRC", "PNLGRP"); ("SQL", "QMQRY"); ("BND", "SRVPGM");
     ("ILESRVPGM", "SRVPGM"); ("BNDDIR", "BNDD"); ("DTA", "DTA");
     ("DTAARA", "DTA"); ("SYSTRG", "TRG"); ("SQLPRC", "SQL");
     ("TABLE", "SQL"); ("VIEW", "SQL"); ("SQLSEQ", "SQL");
     ("SQLUDF", "SQL"); ("SQLTRG", "SQL"); ("MSGF", "MSG");
     ("WSCSTSRC", "WSCST")].

Definition TARGET_TARGETGROUPS_MAPPING : gmap string string :=
  dict_display
    [("CMD", "CMD"); ("FILE", "PF"); ("MENU", "MENU"); ("MODULE", "MODULE");
     ("PGM", "PGM"); ("PNLGRP", "PNLGRP"); ("QMQRY", "QMQRY");
     ("BNDD", "BNDD"); ("DTA", "DTA"); ("PGM", "PGM"); ("DTAARA", "SQL");
     ("SRVPGM", "SRVPGM"); ("MSGF", "MSG"); ("WSCST", "WSCST");
     ("TRG", "TRG")].

(** The lookups the tables are used for: a file-extension token and a
    target-type token. *)
Definition file_targetgroup (ext : string) : option string :=
  FILE_TARGETGROUPS_MAPPING !! ext.

Definition target_targetgroup (tgt : string) : option string :=
  TARGET_TARGETGROUPS_MAPPING !! tgt.

Definition FILE_TARGET_MAPPING : gmap string string :=
  dict_display
    [("PGM.SQLRPGLE", "PGM"); ("PGM.RPGLE", "PGM"); ("PGM.CLLE", "PGM");
     ("PGM.C", "PGM"); ("CMDSRC", "CMD"); ("DSPF", "FILE"); ("LF", "FILE");
     ("PF", "FILE"); ("PRTF", "FILE"); ("MENUSRC", "MENU"); ("MENU", "MENU");
     ("C", "MODULE"); ("RPGLE", "MODULE"); ("CLLE", "MODULE");
     ("SQLC", "MODULE"); ("SQLRPGLE", "MODULE"); ("MODULE", "PGM");
     ("CBL", "PGM"); ("CBLLE", "PGM"); ("RPG", "PGM"); ("ILEPGM", "PGM");
     ("PNLGRPSRC", "PNLGRP"); ("PNLGRP", "PNLGRP"); ("SQL", "QMQRY");
     ("BND", "SRVPGM"); ("ILESRVPGM", "SRVPGM"); ("BNDDIR", "BNDD");
     ("DTAARA", "DTA"); ("SYSTRG", "PGM"); ("SQLPRC", "PGM");
     ("TABLE", "FILE"); ("VIEW", "FILE"); ("SQLSEQ", "DTAARA");
     ("SQLUDF", "SRVPGM"); ("SQLTRG", "PGM"); ("MSGF", "MSGF");
     ("WSCSTSRC", "WSCST")].

(** [d.keys()], up to the order. *)
Definition keys (d : gmap string string) : list string := (map_to_list d).*1.

(** [max(it)]; [None] is the ValueError of an empty argument. *)
Definition py_max (l : list nat) : option nat :=
  match l with
  | [] => None
  | _ => Some (max_list l)
  end.

Definition FILE_MAX_EXT_LENGTH : option nat :=
  py_max (map (λ ext, length (PyStr.split "." ext)) (keys FILE_TARGET_MAPPING)).

End Const.

(** ** makei/build.py *)

Module Build.
Import PyStr PyPath.

(** A loop whose body may raise: the first exception ends it. *)
Fixpoint for_each {S A : Type} (body : S → A → option S) (st : S) (l : list A)
    : option S :=
  match l with
  | [] => Some st
  | x :: l' => st' ← body st x; for_each body st' l'
  end.

(** [l.sort(key=key)]: ascending and stable. *)
Fixpoint insert_by {A : Type} (key : A → nat) (x : A) (l : list A) : list A :=
  match l with
  | [] => [x]
  | y :: l' => if (key x <=? key y)%nat then x :: l else y :: insert_by key x l'
  end.

Definition sort_by {A : Type} (key : A → nat) (l : list A) : list A :=
  foldr (insert_by key) [] l.

(** The project descriptor as [read_iproj_json] hands it over: the keys
    the build module reads. *)
Record IProj := mkIProj {
  objlib : string;
  tgtCcsid : string;
  curlib : string;
  preUsrlibl : string;
  postUsrlibl : string;
  includePath : string;
  setIBMiEnvCmd : option (list string)
}.

(** The pair kept per directory: (object library, target CCSID). *)
Abbreviation DirVars := (string * string)%type.

(** What is found at [dir/.ibmi.json]: nothing, a file that does not
    parse, or an override that declares each field or leaves it out. *)
Inductive IbmiJson :=
| NoFile
| Malformed
| Override (ov_objlib ov_tgtCcsid : option string).

(** Modelled from the spec: [read_ibmi_json] of [makei/utils.py] is not
    part of the sources. An absent override file inherits the parent's
    resolved entry verbatim; a present one gives each field
    independently, the parent's resolved value standing in for a field it
    omits; a malformed file is a fatal error. *)
Definition read_ibmi_json (file : IbmiJson) (parent_value : DirVars)
    : option DirVars :=
  match file with
  | NoFile => Some parent_value
  | Malformed => None
  | Override o c => Some (default parent_value.1 o, default parent_value.2 c)
  end.

Record BuildEnv := mkBuildEnv {
  src_dir : Path;
  targets : list string;
  make_options : string;
  bob_path : Path;
  bob_makefile : Path;
  build_vars_path : Path;
  iproj_json : IProj;
  color : bool;
  ibmi_env_cmds : string
}.

(** The attribute assignments of [__init__]. [cwd] is [Path.cwd()], [tmp]
    the path [mkstemp] returned, [iproj] the descriptor read, [tty] the
    answer of [support_color]; [overrides] holds its values as paths. The
    separator of the environment commands is a backslash and an [n]. *)
Definition BuildEnv_init (cwd BOB_PATH tmp : Path) (iproj : IProj) (tty : bool)
    (targets : option (list string)) (make_options : option string)
    (overrides : option (gmap string Path)) : BuildEnv :=
  let overrides := default ∅ overrides in
  let bob := default BOB_PATH (overrides !! "bob_path") in
  {| src_dir := cwd;
     targets := match targets with Some t => t | None => ["all"] end;
     make_options :=
       match make_options with
       | Some o => if String.eqb o "" then "" else o
       | None => ""
       end;
     bob_path := bob;
     bob_makefile := joinpath (joinpath bob "mk") "Makefile";
     build_vars_path := tmp;
     iproj_json := iproj;
     color := tty;
     ibmi_env_cmds :=
       match setIBMiEnvCmd iproj with
       | Some cmd_list => join "\n" cmd_list
       | None => ""
       end |}.

Definition generate_make_cmd (self : BuildEnv) : string :=
  let cmd :=
    "make -k BUILDVARSMKPATH=" ++ chr dquote ++ path_str (build_vars_path self)
      ++ chr dquote
      ++ " -k BOB=" ++ chr dquote ++ path_str (bob_path self) ++ chr dquote
      ++ " -f " ++ chr dquote ++ path_str (bob_makefile self) ++ chr dquote in
  let cmd :=
    if String.eqb (make_options self) "" then cmd
    else cmd ++ " " ++ make_options self in
  cmd ++ " " ++ join " " (targets self).

(** *** [_create_build_vars]: the directory map *)

Section Resolution.
(** What the tree holds at each [.ibmi.json] path. *)
Variable ibmi_files : Path → IbmiJson.

(** The closure [map_ibmi_json_var]; the dictionary it updates is
    passed through. [None] is the IndexError of [parents[0]], the
    KeyError of [dir_var_map[...]] or the error of the reader. *)
Definition map_ibmi_json_var (dir_var_map : gmap Path DirVars) (path : Path)
    : option (gmap Path DirVars) :=
  if decide (path = dot) then Some dir_var_map
  else
    parent ← parent0 path;
    parent_value ← dir_var_map !! parent;
    value ← read_ibmi_json (ibmi_files (joinpath path ".ibmi.json")) parent_value;
    Some (<[path := value]> dir_var_map).

(** The loop over an already ordered list of directories. *)
Definition resolve_in_order (iproj : IProj) (subdirs : list Path)
    : option (gmap Path DirVars) :=
  for_each map_ibmi_json_var {[dot := (objlib iproj, tgtCcsid iproj)]} subdirs.

(** Lines 76-85: sort by depth, seed the root, resolve. *)
Definition resolve (iproj : IProj) (subdirs : list Path)
    : option (gmap Path DirVars) :=
  resolve_in_order iproj (sort_by nparts subdirs).
End Resolution.

(** *** [_create_build_vars]: the rule scanner *)

(** The test of line 112 on a line already stripped. *)
Definition is_target_line (line : string) : bool :=
  negb (String.eqb line "") && negb (startswith line "#")
  && negb (str_in "=" line) && negb (startswith_any line [" "; chr tab]).

(** One line of the variable file. *)
Definition assignment (var value : string) : string :=
  var ++ " := " ++ value ++ chr nl.

(** What is written for a variable and its value, before formatting. *)
Abbreviation Assign := (string * string)%type.

Definition render (a : Assign) : string := assignment a.1 a.2.

(** The body of the loop over the lines of one [Rules.mk]. *)
Definition scan_line (cwd rules_mk : Path) (out : list Assign) (line : string)
    : option (list Assign) :=
  let line := rstrip line in
  if is_target_line line then
    dir ← parent0 rules_mk;
    Some (app out [(item0 (split ":" line) ++ "_d",
                    path_str (absolute cwd dir))])
  else Some out.

(** Lines 107-115 for one rule file with the text [content]. *)
Definition scan_rules_mk (cwd : Path) (read_text : Path → string)
    (out : list Assign) (rules_mk : Path) : option (list Assign) :=
  for_each (scan_line cwd rules_mk) out (readlines (read_text rules_mk)).

(** Lines 107-115: all rule files, in the order [rglob] listed them. *)
Definition scan_all (cwd : Path) (read_text : Path → string)
    (rules_mks : list Path) : option (list Assign) :=
  for_each (scan_rules_mk cwd read_text) [] rules_mks.

(** *** [_create_build_vars]: the variable file *)

Section Writer.
(** [objlib_to_path] of [makei/utils.py], not part of the sources. *)
Variable objlib_to_path : string → string.
Variable ibmi_files : Path → IbmiJson.
Variable read_text : Path → string.

Definition header (self : BuildEnv) : string :=
  join (chr nl)
    ["# This file is generated by makei, DO NOT EDIT.";
     "# Modify .ibmi.json to override values";
     "";
     "curlib := " ++ curlib (iproj_json self);
     "preUsrlibl := " ++ preUsrlibl (iproj_json self);
     "postUsrlibl := " ++ postUsrlibl (iproj_json self);
     "INCDIR := " ++ includePath (iproj_json self);
     "IBMiEnvCmd := " ++ ibmi_env_cmds self;
     "COLOR_TTY := " ++ (if color self then "true" else "false");
     "";
     ""].

(** The body of the loop of lines 101-105. *)
Definition write_dir_vars (cwd : Path) (dir_var_map : gmap Path DirVars)
    (out : list Assign) (subdir : Path) : option (list Assign) :=
  v ← dir_var_map !! subdir;
  Some (app out [("TGTCCSID_" ++ path_str (absolute cwd subdir), v.2);
                 ("OBJPATH_" ++ path_str (absolute cwd subdir),
                  objlib_to_path v.1)]).

(** [_create_build_vars]: the text written to the variable file, for
    the rule files [rules_mks] that [rglob] found. *)
Definition create_build_vars (self : BuildEnv) (rules_mks : list Path)
    : option string :=
  subdirs ← mapM parent0 rules_mks;
  let subdirs := sort_by nparts subdirs in
  dir_var_map ← resolve_in_order ibmi_files (iproj_json self) subdirs;
  dir_lines ← for_each (write_dir_vars (src_dir self) dir_var_map) [] subdirs;
  target_lines ← scan_all (src_dir self) read_text rules_mks;
  Some (header self ++ String.concat "" (map render dir_lines)
          ++ String.concat "" (map render target_lines)).
End Writer.

(** *** The files of the session *)

(** The regular files on disk, by absolute path, with their text. *)
Abbreviation FS := (gmap Path string).

Definition exists_ (fs : FS) (p : Path) : bool := bool_decide (is_Some (fs !! p)).

(** [p.unlink()]; [None] is the FileNotFoundError of a missing file. *)
Definition unlink (fs : FS) (p : Path) : option FS :=
  match fs !! p with
  | Some _ => Some (delete p fs)
  | None => None
  end.

(** [__del__]. *)
Definition BuildEnv_del (self : BuildEnv) (fs : FS) : option FS :=
  unlink fs (build_vars_path self).

(** The replacement of line 133. *)
Definition normalize (cwd : Path) (text : string) : string :=
  replace text (path_str cwd ++ "/") "".

(** [start.rglob(pattern)] over the files on disk. *)
Definition rglob (fs : FS) (cwd start : Path) (matches : string → bool)
    : list Path :=
  omap (rglob_hit cwd start matches) (map_to_list fs).*1.

Definition event_files (fs : FS) (cwd : Path) : list Path :=
  rglob fs cwd (mkPath false [".evfevent"]) (λ n, endswith n ".evfevent").

(** The body of the loop of [_post_make]: read, replace, write back. *)
Definition normalize_file (cwd : Path) (fs : FS) (filepath : Path) : option FS :=
  text ← fs !! absolute cwd filepath;
  Some (<[absolute cwd filepath := normalize cwd text]> fs).

Definition post_make (cwd : Path) (fs : FS) : option FS :=
  for_each (normalize_file cwd) fs (event_files fs cwd).

(** The two log files [make] clears: [src_dir / ".logs" / ...]. *)
Definition joblog (self : BuildEnv) : Path :=
  joinpath (joinpath (src_dir self) ".logs") "joblog.json".

Definition output_log (self : BuildEnv) : Path :=
  joinpath (joinpath (src_dir self) ".logs") "output.log".

Section Make.
(** [run_command] of [makei/utils.py], not part of the sources: it
    blocks until the engine has exited and hands back the exit status
    together with whatever the engine did to the files. *)
Variable run_command : string → FS → Z * FS.

Definition remove_if_exists (fs : FS) (p : Path) : option FS :=
  if exists_ fs p then unlink fs p else Some fs.

(** [make]; the working directory is still [src_dir]. *)
Definition make (self : BuildEnv) (fs : FS) : option FS :=
  fs ← remove_if_exists fs (joblog self);
  fs ← remove_if_exists fs (output_log self);
  let r := run_command (generate_make_cmd self) fs in
  post_make (src_dir self) r.2.
End Make.

(** *** Vocabulary for stating the properties *)

(** A processing order of non-decreasing depth. *)
Definition depth_ordered (l : list Path) : Prop :=
  StronglySorted (λ x y, (nparts x ≤ nparts y)%nat) l.

Section ResolutionSpec.
Variable ibmi_files : Path → IbmiJson.

(** Every discovered directory other than the root has the root or
    another discovered directory as its parent, and its override file,
    if any, parses. *)
Definition resolvable (subdirs : list Path) : Prop :=
  ∀ D, D ∈ subdirs → D ≠ dot →
    ∃ parent, parent0 D = Some parent ∧ (parent = dot ∨ parent ∈ subdirs)
              ∧ ibmi_files (joinpath D ".ibmi.json") ≠ Malformed.

(** Whenever the loop reaches a directory, the map built so far holds
    an entry for its parent. *)
Definition parent_ready (iproj : IProj) (subdirs : list Path) : Prop :=
  ∀ before D after, sort_by nparts subdirs = (before ++ D :: after)%list →
    D ≠ dot →
    ∃ dir_var_map parent,
      resolve_in_order ibmi_files iproj before = Some dir_var_map
      ∧ parent0 D = Some parent ∧ is_Some (dir_var_map !! parent).

(** A map is the cascade over [subdirs]: the root holds the project's
    pair, every other listed directory what the reader makes of its
    override file and its parent's entry, and nothing else is there. *)
Definition cascaded (iproj : IProj) (subdirs : list Path)
    (m : gmap Path DirVars) : Prop :=
  m !! dot = Some (objlib iproj, tgtCcsid iproj)
  ∧ (∀ D, D ∈ subdirs → D ≠ dot →
       ∃ parent pv v, parent0 D = Some parent ∧ m !! parent = Some pv
         ∧ read_ibmi_json (ibmi_files (joinpath D ".ibmi.json")) pv = Some v
         ∧ m !! D = Some v)
  ∧ (∀ k, is_Some (m !! k) → k = dot ∨ k ∈ subdirs).
End ResolutionSpec.

(** [t] is [line] without its trailing whitespace. *)
Definition trimmed (line t : string) : Prop :=
  ∃ ws, line = t ++ ws ∧ all_space ws ∧ ends_nonspace t.

(** A target declaration line, in the words of the scanner's
    description: not empty, no comment, no recipe or continuation line,
    no assignment. *)
Definition target_declaration (t : string) : Prop :=
  t ≠ ""
  ∧ (∀ rest, t ≠ "#" ++ rest)
  ∧ (∀ rest, t ≠ " " ++ rest) ∧ (∀ rest, t ≠ String tab rest)
  ∧ ¬ has_char "=" t.

(** [id] is everything of [t] before its first [sep] (all of [t] when
    it holds none). *)
Definition before_first (sep : ascii) (t id : string) : Prop :=
  ¬ has_char sep id
  ∧ (id = t ∨ ∃ rest, t = id ++ String sep rest).

(** The identifiers one rule file declares, line by line. *)
Definition declared (content : string) : list string :=
  omap (λ line, let t := rstrip line in
                if is_target_line t then Some (item0 (split ":" t)) else None)
       (readlines content).

(** The assignment that records [dir] as the owner of the target [id]. *)
Definition owned_by (cwd dir : Path) (id : string) : Assign :=
  (id ++ "_d", path_str (absolute cwd dir)).

(** What the scan of one rule file adds to the variable file. *)
Definition found_in (cwd : Path) (read_text : Path → string) (rules_mk : Path)
    : list Assign :=
  match parent0 rules_mk with
  | Some dir => map (owned_by cwd dir) (declared (read_text rules_mk))
  | None => []
  end.


(** The rule file used as the example of the scanner. *)
Definition rules_example : string :=
  "FOO: bar.c" ++ chr nl ++ "  recipe line" ++ chr nl
  ++ "# comment" ++ chr nl ++ "VAR = value" ++ chr nl.

(** *** [__init__] with its effects on the files *)

Section Init.
Variable objlib_to_path : string → string.
Variable ibmi_files : Path → IbmiJson.
Variable read_text : Path → string.




End Init.

(** The paths that end at the segments [rsegs], given last segment
    first, or above: the path itself, then [parents[0]], [parents[1]], ... *)
Fixpoint chain (a : bool) (rsegs : list string) : list Path :=
  mkPath a (rev rsegs)
  :: match rsegs with
     | [] => []
     | _ :: above => chain a above
     end.

(** The directory [D] and the directories above it, nearest first. *)
Definition lineage (D : Path) : list Path := chain (anchored D) (rev (segs D)).

(** *** Example trees *)

Definition sub1 : Path := mkPath false ["sub1"].
Definition sub2 : Path := mkPath false ["sub1"; "sub2"].

(** The tree of the cascade example: [sub1/sub2] overrides the CCSID. *)
Definition cascade_files (p : Path) : IbmiJson :=
  if decide (p = joinpath sub2 ".ibmi.json") then Override None (Some "1208")
  else NoFile.

Definition cascade_iproj : IProj := mkIProj "LIBA" "37" "" "" "" "" None.

Definition cascade_map : gmap Path DirVars :=
  <[sub2 := ("LIBA", "1208")]> (<[sub1 := ("LIBA", "37")]> {[dot := ("LIBA", "37")]}).

(** Two rule files that declare the same target, in the working
    directory [/w]. *)
Definition work : Path := mkPath true ["w"].
Definition rules_a : Path := mkPath false ["a"; "Rules.mk"].

(** A session in [/w] with its variable file at [/tmp/tmpb0b]. *)
Definition tmp_vars : Path := mkPath true ["tmp"; "tmpb0b"].
Definition work_env : BuildEnv :=
  BuildEnv_init work (mkPath true ["opt"; "bob"]) tmp_vars cascade_iproj false
                None None None.

(** The files after an engine run that failed and left one event file. *)
Definition event_a : Path := mkPath true ["w"; ".evfevent"; "a.evfevent"].
Definition failing_engine (cmd : string) (fs : FS) : Z * FS :=
  (2%Z, <[event_a := "FILEID /w/src/a.c /w/inc/a.h"]> fs).

(** The cascade example with one more directory, [other], whose override
    names another library. *)
Definition other : Path := mkPath false ["other"].
Definition other_files (p : Path) : IbmiJson :=
  if decide (p = joinpath other ".ibmi.json") then Override (Some "LIBB") None
  else cascade_files p.

(** A tree in which [a/b] holds a rule file and [a] holds none. *)
Definition orphan : Path := mkPath false ["a"; "b"].

End Build.

(** ** Facts about the string methods *)

#[local] Arguments String.append !s1 s2 : simpl nomatch.

Module PyStrFacts.
Import PyStr.

Lemma append_nil_r (s : string) : s ++ "" = s.
Proof. induction s as [|c s IH]; simpl; [done | by rewrite IH]. Qed.

Lemma append_assoc (a b c : string) : (a ++ b) ++ c = a ++ b ++ c.
Proof. induction a as [|x a IH]; simpl; [done | by rewrite IH]. Qed.

Lemma length_append (a b : string) :
  String.length (a ++ b) = String.length a + String.length b.
Proof. induction a as [|x a IH]; simpl; [done | by rewrite IH]. Qed.


(** [String.prefix] is the "starts with" relation. *)
Lemma prefix_iff (p s : string) :
  String.prefix p s = true ↔ ∃ r, s = p ++ r.
Proof.
  revert p. induction s as [|c s IH]; intros [|a p]; simpl.
  - split; [by exists "" | done].
  - split; [done | by intros [r Hr]].
  - split; [by eexists | done].
  - destruct (ascii_dec a c) as [->|Hne].
    + rewrite IH. split; intros [r Hr]; exists r; congruence.
    + split; [done | intros [r Hr]; congruence].
Qed.

Lemma prefix_nil (s : string) : String.prefix "" s = true.
Proof. by destruct s. Qed.

Lemma startswith_chr (s : string) (c : ascii) :
  startswith s (chr c) = true ↔ ∃ r, s = String c r.
Proof. unfold startswith. by rewrite prefix_iff. Qed.

(** [str_in] is the substring relation. *)
Lemma str_in_iff (n h : string) :
  str_in n h = true ↔ ∃ a b, h = a ++ n ++ b.
Proof.
  induction h as [|c h IH].
  - change (str_in n "") with (String.prefix n "" || false).
    rewrite orb_false_r, prefix_iff. split.
    + intros [r Hr]. by exists "", r.
    + intros [[|x a] [b Hb]]; [by exists b | done].
  - change (str_in n (String c h)) with (String.prefix n (String c h) || str_in n h).
    rewrite orb_true_iff, IH, prefix_iff. split.
    + intros [[r Hr] | (a & b & ->)]; [by exists "", r | by exists (String c a), b].
    + intros ([|x a] & b & Hb); simpl in Hb.
      * left. by exists b.
      * right. injection Hb as -> ->. by exists a, b.
Qed.

Lemma str_in_chr (c : ascii) (s : string) :
  str_in (chr c) s = true ↔ has_char c s.
Proof.
  induction s as [|x s IH]; [done |].
  change (str_in (chr c) (String x s))
    with (String.prefix (chr c) (String x s) || str_in (chr c) s).
  rewrite orb_true_iff, IH, prefix_iff. simpl. split.
  - intros [[r Hr]|?]; [left; congruence | by right].
  - intros [->|?]; [left; by exists s | by right].
Qed.

Lemma rstrip_space (s : string) : rstrip s = "" ↔ all_space s.
Proof.
  unfold all_space. induction s as [|x s IH]; simpl; [naive_solver|].
  destruct (rstrip s) eqn:E.
  - destruct (isspace x) eqn:Ex.
    + split; [|done]. intros _ c [<-|Hc]; [done | by apply IH].
    + split; [done|]. intros H. rewrite H in Ex; [done | by left].
  - split; [done|]. intros H.
    assert ((String a s0) = "") as ?; [|done]. apply IH. intros c Hc. apply H. by right.
Qed.

Lemma rstrip_ends_nonspace (s : string) : ends_nonspace (rstrip s).
Proof.
  unfold ends_nonspace, chr. induction s as [|x s IH]; simpl; intros t c.
  - by destruct t.
  - destruct (rstrip s) eqn:E.
    + destruct (isspace x) eqn:Ex.
      * by destruct t.
      * destruct t as [|y [|z t]]; simpl; intros H; try done.
        unfold chr in H. congruence.
    + destruct t as [|y t]; simpl; [done|].
      intros H. injection H as -> H. by eapply IH.
Qed.

Lemma rstrip_split (s : string) :
  ∃ ws, s = rstrip s ++ ws ∧ all_space ws.
Proof.
  induction s as [|x s (ws & Hs & Hws)]; simpl.
  - exists "". split; [done | by intros c []].
  - destruct (rstrip s) eqn:E.
    + destruct (isspace x) eqn:Ex.
      * exists (String x s). split; [done|].
        simpl in Hs. subst ws. intros c [<-|Hc]; [done | by apply Hws].
      * exists ws. unfold chr. simpl in *. by subst.
    + exists ws. simpl in *. split; [by rewrite <- Hs | done].
Qed.

(** [rstrip] is determined by its two properties: what it removes is
    whitespace, what it leaves does not end in whitespace. *)
Lemma rstrip_unique (t ws : string) :
  all_space ws → ends_nonspace t → rstrip (t ++ ws) = t.
Proof.
  intros Hws Ht. induction t as [|x t IH]; simpl.
  - by apply rstrip_space.
  - rewrite IH.
    + destruct t; [|done].
      rewrite (Ht "" x eq_refl). done.
    + intros t' c ->. by apply (Ht (String x t') c).
Qed.

Lemma split_nonempty (sep : ascii) (s : string) : split sep s ≠ [].
Proof.
  destruct s as [|c s]; simpl; [done|].
  destruct (Ascii.eqb c sep); [done|]. by destruct (split sep s).
Qed.

Lemma split_head_cons (sep c : ascii) (s : string) :
  item0 (split sep (String c s)) =
  if Ascii.eqb c sep then "" else String c (item0 (split sep s)).
Proof.
  simpl. destruct (Ascii.eqb c sep); [done|].
  pose proof (split_nonempty sep s). by destruct (split sep s).
Qed.

(** The first field holds no separator. *)
Lemma split_head_no_sep (sep : ascii) (s : string) :
  ¬ has_char sep (item0 (split sep s)).
Proof.
  induction s as [|c s IH]; [by intros []|].
  rewrite split_head_cons. destruct (Ascii.eqb_spec c sep); simpl; [tauto|].
  intros [?|?]; [done | by apply IH].
Qed.

(** The first field is the whole string, or what stands before a
    separator. *)
Lemma split_head_prefix (sep : ascii) (s : string) :
  (¬ has_char sep s ∧ item0 (split sep s) = s) ∨
  (∃ rest, s = item0 (split sep s) ++ String sep rest).
Proof.
  induction s as [|c s IH]; [left; split; [by intros [] | done]|].
  rewrite split_head_cons. destruct (Ascii.eqb_spec c sep) as [->|Hne].
  - right. by exists s.
  - destruct IH as [[Hno Heq]|[rest Hrest]].
    + left. rewrite Heq. split; [|done]. simpl. tauto.
    + right. exists rest. simpl. by rewrite <- Hrest.
Qed.

Lemma split_head_unique (sep : ascii) (t rest : string) :
  ¬ has_char sep t → item0 (split sep (t ++ String sep rest)) = t.
Proof.
  induction t as [|c t IH]; intros Hno.
  - simpl. by rewrite Ascii.eqb_refl.
  - change (String c t ++ String sep rest) with (String c (t ++ String sep rest)).
    rewrite split_head_cons. simpl in Hno.
    destruct (Ascii.eqb_spec c sep); [tauto|]. rewrite IH; [done | tauto].
Qed.

(** *** [replace] *)

Lemma replace_scan_nil (old new : string) (k : nat) :
  replace_scan old new k "" = "".
Proof. done. Qed.



Lemma length_replace_scan (old : string) (k : nat) (s : string) :
  (String.length (replace_scan old "" k s) + Nat.min k (String.length s)
   ≤ String.length s)%nat.
Proof.
  revert k. induction s as [|c s IH]; intros k; [simpl; lia|].
  destruct k as [|k].
  - change (replace_scan old "" 0 (String c s)) with
      (if String.prefix old (String c s)
       then "" ++ replace_scan old "" (String.length old - 1) s
       else String c (replace_scan old "" 0 s)).
    destruct (String.prefix old (String c s)); simpl.
    + specialize (IH (String.length old - 1)). lia.
    + specialize (IH 0). lia.
  - simpl. specialize (IH k). lia.
Qed.

(** Deleting the occurrences of a non-empty [old] shortens every text
    that holds one. *)
Lemma replace_scan_shorter (old s : string) :
  old ≠ "" → str_in old s = true →
  (String.length (replace_scan old "" 0 s) < String.length s)%nat.
Proof.
  intros Hold. induction s as [|c s IH]; intros Hin.
  - destruct old; [done | by simpl in Hin].
  - change (str_in old (String c s))
      with (String.prefix old (String c s) || str_in old s) in Hin.
    change (replace_scan old "" 0 (String c s)) with
      (if String.prefix old (String c s)
       then "" ++ replace_scan old "" (String.length old - 1) s
       else String c (replace_scan old "" 0 s)).
    destruct (String.prefix old (String c s)); simpl in *.
    + pose proof (length_replace_scan old (String.length old - 1) s). lia.
    + specialize (IH Hin). lia.
Qed.

(** A text without an occurrence is left as it is. *)
Lemma replace_scan_absent (old new s : string) :
  str_in old s = false → replace_scan old new 0 s = s.
Proof.
  induction s as [|c s IH]; intros Hin; [done|].
  change (str_in old (String c s))
    with (String.prefix old (String c s) || str_in old s) in Hin.
  apply orb_false_iff in Hin as [Hp Hin].
  change (replace_scan old new 0 (String c s)) with
    (if String.prefix old (String c s)
     then new ++ replace_scan old new (String.length old - 1) s
     else String c (replace_scan old new 0 s)).
  rewrite Hp, IH; done.
Qed.

(** Replacing by nothing leaves a text unchanged exactly when [old] does
    not occur in it. *)
Lemma replace_fixpoint (old s : string) :
  old ≠ "" → replace s old "" = s ↔ str_in old s = false.
Proof.
  intros Hold. unfold replace. destruct old as [|x old]; [done|]. split.
  - intros Heq. destruct (str_in (String x old) s) eqn:Hin; [|done].
    pose proof (replace_scan_shorter (String x old) s Hold Hin) as Hlt.
    rewrite Heq in Hlt. lia.
  - apply replace_scan_absent.
Qed.

End PyStrFacts.

(** ** Facts about the tables and the directory map *)

Module ConstFacts.
Import Const.

Lemma file_values_closed :
  map_Forall (λ _ v, v ∈ TARGET_GROUPS) FILE_TARGETGROUPS_MAPPING.
Proof.
  apply map_Forall_to_list. vm_compute.
  repeat (apply Forall_cons; split; [set_solver |]). apply Forall_nil_2.
Qed.
Lemma target_values_closed :
  map_Forall (λ _ v, v ∈ TARGET_GROUPS) TARGET_TARGETGROUPS_MAPPING.
Proof.
  apply map_Forall_to_list. vm_compute.
  repeat (apply Forall_cons; split; [set_solver |]). apply Forall_nil_2.
Qed.

(** C10. Every value of the two tables is one of the target groups, so
    neither lookup yields a group outside [TARGET_GROUPS]. *)
Theorem mapping_tables_closed :
  (∀ ext group, file_targetgroup ext = Some group → group ∈ TARGET_GROUPS)
  ∧ (∀ tgt group, target_targetgroup tgt = Some group → group ∈ TARGET_GROUPS).
Proof.
  split; intros k group Hk.
  - exact (map_Forall_lookup_1 _ _ _ _ file_values_closed Hk).
  - exact (map_Forall_lookup_1 _ _ _ _ target_values_closed Hk).
Qed.

End ConstFacts.

Module ResolutionFacts.
Import PyStr PyPath Build.

Lemma for_each_cons {S A : Type} (body : S → A → option S) st x (l : list A) :
  for_each body st (x :: l) = body st x ≫= λ st', for_each body st' l.
Proof. done. Qed.

Lemma for_each_app {S A : Type} (body : S → A → option S) st (l1 l2 : list A) :
  for_each body st (l1 ++ l2)%list = for_each body st l1 ≫= λ st', for_each body st' l2.
Proof.
  revert st. induction l1 as [|x l1 IH]; intros st; simpl; [done|].
  destruct (body st x); simpl; [apply IH | done].
Qed.

Lemma for_each_snoc {S A : Type} (body : S → A → option S) st (l : list A) x :
  for_each body st (l ++ [x])%list = for_each body st l ≫= λ st', body st' x.
Proof.
  rewrite for_each_app. destruct (for_each body st l); simpl; [|done].
  by destruct (body _ x).
Qed.

Lemma elem_of_snoc {A} (l : list A) (x y : A) :
  x ∈ (l ++ [y])%list ↔ x ∈ l ∨ x = y.
Proof. by rewrite elem_of_app, list_elem_of_singleton. Qed.

(** *** Sorting *)

Lemma insert_by_perm {A} (key : A → nat) x l : insert_by key x l ≡ₚ x :: l.
Proof.
  induction l as [|y l IH]; simpl; [done|].
  destruct (key x <=? key y)%nat; [done|]. rewrite IH. apply Permutation_swap.
Qed.

Lemma sort_by_perm {A} (key : A → nat) l : sort_by key l ≡ₚ l.
Proof.
  induction l as [|x l IH]; simpl; [done|]. by rewrite insert_by_perm, IH.
Qed.

Lemma insert_by_sorted {A} (key : A → nat) x l :
  StronglySorted (λ a b, key a ≤ key b)%nat l →
  StronglySorted (λ a b, key a ≤ key b)%nat (insert_by key x l).
Proof.
  induction 1 as [|y l Hl IH Hy]; simpl.
  - repeat constructor.
  - destruct (Nat.leb_spec (key x) (key y)).
    + constructor; [by constructor|]. constructor; [done|].
      eapply Forall_impl; [exact Hy|]. simpl. lia.
    + constructor; [done|]. rewrite insert_by_perm. constructor; [lia | done].
Qed.

Lemma sort_by_sorted {A} (key : A → nat) l :
  StronglySorted (λ a b, key a ≤ key b)%nat (sort_by key l).
Proof.
  induction l as [|x l IH]; simpl; [constructor | by apply insert_by_sorted].
Qed.

Lemma sort_by_depth_ordered l : depth_ordered (sort_by nparts l).
Proof. apply sort_by_sorted. Qed.

Lemma depth_ordered_snoc l D :
  depth_ordered (l ++ [D]) → depth_ordered l ∧ ∀ E, E ∈ l → (nparts E ≤ nparts D)%nat.
Proof.
  unfold depth_ordered. intros H. split; [by eapply StronglySorted_app_1_l|].
  intros E HE.
  apply (StronglySorted_app_1_elem_of (λ x y, nparts x ≤ nparts y)%nat l [D]);
    [done | done | by apply list_elem_of_singleton].
Qed.

(** *** Parents *)

Lemma parent0_nparts p q : parent0 p = Some q → nparts p = S (nparts q).
Proof.
  unfold parent0, nparts, parts. destruct p as [a sg]; simpl.
  destruct sg as [|x sg] using rev_ind; [done|]. clear IHsg.
  destruct (sg ++ [x])%list eqn:E; [by destruct sg|]. rewrite <- E.
  intros [= <-]. simpl. rewrite removelast_last, !length_app. simpl. lia.
Qed.

Lemma parent0_ne p q : parent0 p = Some q → q ≠ p.
Proof. intros H%parent0_nparts ->. lia. Qed.


(** *** The loop of [map_ibmi_json_var] *)

Section Loop.
Variable ibmi_files : Path → IbmiJson.
Variable iproj : IProj.

Lemma resolve_in_order_snoc l D :
  resolve_in_order ibmi_files iproj (l ++ [D]) =
  resolve_in_order ibmi_files iproj l ≫= λ m, map_ibmi_json_var ibmi_files m D.
Proof. apply for_each_snoc. Qed.

Lemma step_dot m : map_ibmi_json_var ibmi_files m dot = Some m.
Proof. unfold map_ibmi_json_var. by rewrite decide_True. Qed.

Lemma step_Some m D m' :
  D ≠ dot → map_ibmi_json_var ibmi_files m D = Some m' →
  ∃ parent pv v, parent0 D = Some parent ∧ m !! parent = Some pv
    ∧ read_ibmi_json (ibmi_files (joinpath D ".ibmi.json")) pv = Some v
    ∧ m' = <[D := v]> m.
Proof.
  intros HD. unfold map_ibmi_json_var. rewrite decide_False by done.
  destruct (parent0 D) as [parent|]; simpl; [|done].
  destruct (m !! parent) as [pv|] eqn:Hpv; simpl; [|done].
  destruct (read_ibmi_json _ pv) as [v|] eqn:Hv; simpl; [|done].
  intros [= <-]. by exists parent, pv, v.
Qed.

Lemma step_is_Some m D :
  D ≠ dot →
  is_Some (map_ibmi_json_var ibmi_files m D) ↔
  ∃ parent, parent0 D = Some parent ∧ is_Some (m !! parent)
            ∧ ibmi_files (joinpath D ".ibmi.json") ≠ Malformed.
Proof.
  intros HD. unfold map_ibmi_json_var. rewrite decide_False by done.
  destruct (parent0 D) as [parent|] eqn:Hp; simpl.
  - destruct (m !! parent) as [pv|] eqn:Hpv; simpl.
    + destruct (ibmi_files _) eqn:E; simpl.
      * split; [|by eexists]. intros _. exists parent. rewrite Hpv. eauto.
      * split; [by intros [? ?]|]. by intros (p & _ & _ & Hm).
      * split; [|by eexists]. intros _. exists parent. rewrite Hpv. eauto.
    + split; [by intros [? ?]|]. intros (p & [= <-] & [? Hq] & _). congruence.
  - split; [by intros [? ?]|]. by intros (p & ? & _).
Qed.

(** A completed loop over a depth-ordered list leaves the cascade. *)
Lemma resolve_in_order_cascaded l m :
  depth_ordered l → resolve_in_order ibmi_files iproj l = Some m →
  cascaded ibmi_files iproj l m.
Proof.
  revert m. induction l as [|D l IH] using rev_ind; intros m Hord Hrun.
  - injection Hrun as <-. split_and!.
    + by rewrite lookup_singleton_eq.
    + intros D HD. by apply elem_of_nil in HD.
    + intros k [v Hk]. left.
      apply lookup_singleton_Some in Hk. by destruct Hk.
  - apply depth_ordered_snoc in Hord as [Hord Hle].
    rewrite resolve_in_order_snoc in Hrun.
    destruct (resolve_in_order ibmi_files iproj l) as [m0|] eqn:Hm0;
      simpl in Hrun; [|done].
    destruct (IH m0 Hord eq_refl) as (Hroot & Hcasc & Hdom).
    destruct (decide (D = dot)) as [->|HD].
    + rewrite step_dot in Hrun. injection Hrun as <-. split_and!.
      * done.
      * intros E [HE| ->]%elem_of_snoc HEd; [by apply Hcasc | done].
      * intros k Hk. destruct (Hdom k Hk); [by left | right].
        apply elem_of_snoc. by left.
    + apply step_Some in Hrun as (parent & pv & v & Hp & Hpv & Hv & ->); [|done].
      pose proof (parent0_ne _ _ Hp) as Hne.
      split_and!.
      * by rewrite lookup_insert_ne.
      * intros E HE HEd. destruct (decide (E = D)) as [->|HED].
        -- exists parent, pv, v. rewrite lookup_insert_ne by done.
           by rewrite lookup_insert_eq.
        -- assert (E ∈ l) as HEl.
           { apply elem_of_snoc in HE as [?|?]; done. }
           destruct (Hcasc E HEl HEd) as (pE & pvE & vE & HpE & HpvE & HvE & HmE).
           exists pE, pvE, vE. split_and!; [done | | done |].
           ++ rewrite lookup_insert_ne; [done|]. intros <-.
              apply parent0_nparts in HpE. specialize (Hle E HEl). lia.
           ++ by rewrite lookup_insert_ne.
      * intros k [w Hk]. destruct (decide (k = D)) as [->|HkD].
        -- right. apply elem_of_snoc. by right.
        -- rewrite lookup_insert_ne in Hk by done.
           destruct (Hdom k (ex_intro _ w Hk)); [by left | right].
           apply elem_of_snoc. by left.
Qed.

Lemma cascaded_lookup l m E :
  cascaded ibmi_files iproj l m → E = dot ∨ E ∈ l → is_Some (m !! E).
Proof.
  intros (Hroot & Hcasc & _) HE. destruct (decide (E = dot)) as [->|HEd].
  - by eexists.
  - destruct HE as [?|HE]; [done|].
    destruct (Hcasc E HE HEd) as (? & ? & v & _ & _ & _ & Hv). by exists v.
Qed.

Lemma resolvable_snoc l D :
  depth_ordered (l ++ [D]) → resolvable ibmi_files (l ++ [D]) →
  resolvable ibmi_files l.
Proof.
  intros [_ Hle]%depth_ordered_snoc Hres E HE HEd.
  destruct (Hres E) as (p & Hp & Hin & Hwf);
    [apply elem_of_snoc; by left | done |].
  exists p. split_and!; [done | | done].
  destruct Hin as [?|[?| ->]%elem_of_snoc]; [by left | by right |].
  apply parent0_nparts in Hp. specialize (Hle E HE). lia.
Qed.

(** The loop over a depth-ordered list completes exactly on the
    resolvable ones. *)
Lemma resolve_in_order_is_Some l :
  depth_ordered l →
  is_Some (resolve_in_order ibmi_files iproj l) ↔ resolvable ibmi_files l.
Proof.
  induction l as [|D l IH] using rev_ind; intros Hord.
  - split; [|by eexists]. intros _ D HD. by apply elem_of_nil in HD.
  - pose proof Hord as [Hord' Hle]%depth_ordered_snoc.
    specialize (IH Hord'). rewrite resolve_in_order_snoc. split.
    + intros [m Hm].
      destruct (resolve_in_order ibmi_files iproj l) as [m0|] eqn:Hm0;
        simpl in Hm; [|done].
      pose proof (resolve_in_order_cascaded l m0 Hord' Hm0) as (_ & _ & Hdom).
      assert (resolvable ibmi_files l) as Hres by (apply IH; by eexists).
      intros E [HE| ->]%elem_of_snoc HEd.
      * destruct (Hres E HE HEd) as (p & Hp & Hin & Hwf).
        exists p. split_and!; [done | | done].
        destruct Hin; [by left | right; apply elem_of_snoc; by left].
      * assert (is_Some (map_ibmi_json_var ibmi_files m0 D)) as HS by by eexists.
        apply step_is_Some in HS as (p & Hp & Hlk & Hwf); [|done].
        exists p. split_and!; [done | | done].
        destruct (Hdom p Hlk); [by left | right; apply elem_of_snoc; by left].
    + intros Hres. pose proof (resolvable_snoc l D Hord Hres) as Hres'.
      apply IH in Hres' as [m0 Hm0]. rewrite Hm0. simpl.
      destruct (decide (D = dot)) as [->|HD]; [rewrite step_dot; by eexists|].
      apply step_is_Some; [done|].
      destruct (Hres D) as (p & Hp & Hin & Hwf);
        [apply elem_of_snoc; by right | done |].
      exists p. split_and!; [done | | done].
      apply (cascaded_lookup l); [by apply resolve_in_order_cascaded|].
      destruct Hin as [?|[?| ->]%elem_of_snoc]; [by left | by right |].
      by apply parent0_ne in Hp.
Qed.

(** The cascade over a set of directories is one map. *)
Lemma cascaded_unique l1 l2 m1 m2 :
  (∀ x, x ∈ l1 ↔ x ∈ l2) →
  cascaded ibmi_files iproj l1 m1 → cascaded ibmi_files iproj l2 m2 → m1 = m2.
Proof.
  intros Hsame (Hr1 & Hc1 & Hd1) (Hr2 & Hc2 & Hd2).
  assert (∀ n k, nparts k = n → m1 !! k = m2 !! k) as Hall;
    [|apply map_eq; intros k; exact (Hall _ k eq_refl)].
  induction n as [n IH] using lt_wf_ind. intros k <-.
  destruct (decide (k = dot)) as [->|Hk]; [congruence|].
  destruct (decide (k ∈ l1)) as [Hin|Hout].
  - destruct (Hc1 k Hin Hk) as (p1 & pv1 & v1 & Hp1 & Hpv1 & Hv1 & ->).
    destruct (Hc2 k (proj1 (Hsame k) Hin) Hk) as (p2 & pv2 & v2 & Hp2 & Hpv2 & Hv2 & ->).
    assert (p2 = p1) as -> by congruence.
    assert (m1 !! p1 = m2 !! p1) as Heq.
    { apply (IH (nparts p1)); [|done]. apply parent0_nparts in Hp1. lia. }
    rewrite Heq in Hpv1.
    congruence.
  - destruct (m1 !! k) eqn:H1.
    { destruct (Hd1 k) as [?|?]; [by eexists | done | done]. }
    destruct (m2 !! k) eqn:H2; [exfalso | done].
    destruct (Hd2 k) as [?|?]; [by eexists | done |]. by apply Hout, Hsame.
Qed.

(** Two depth-ordered orders of the same directories end alike. *)
Lemma resolve_in_order_perm l1 l2 :
  l1 ≡ₚ l2 → depth_ordered l1 → depth_ordered l2 →
  resolve_in_order ibmi_files iproj l1 = resolve_in_order ibmi_files iproj l2.
Proof.
  intros Hperm H1 H2.
  assert (∀ x, x ∈ l1 ↔ x ∈ l2) as Hsame by (intros x; by rewrite Hperm).
  assert (resolvable ibmi_files l1 ↔ resolvable ibmi_files l2) as Hres.
  { unfold resolvable. split; intros H D HD HDd.
    - destruct (H D) as (p & ? & Hin & ?); [by apply Hsame | done |].
      exists p. split_and!; [done | | done]. destruct Hin; [by left | right; by apply Hsame].
    - destruct (H D) as (p & ? & Hin & ?); [by apply Hsame | done |].
      exists p. split_and!; [done | | done]. destruct Hin; [by left | right; by apply Hsame]. }
  pose proof (resolve_in_order_is_Some l1 H1) as S1.
  pose proof (resolve_in_order_is_Some l2 H2) as S2.
  destruct (resolve_in_order ibmi_files iproj l1) as [m1|] eqn:E1;
    destruct (resolve_in_order ibmi_files iproj l2) as [m2|] eqn:E2.
  - f_equal. eapply cascaded_unique; [exact Hsame | |];
      by apply resolve_in_order_cascaded.
  - exfalso. assert (is_Some (@None (gmap Path DirVars))) as [? ?]; [|done].
    apply S2, Hres, S1. by eexists.
  - exfalso. assert (is_Some (@None (gmap Path DirVars))) as [? ?]; [|done].
    apply S1, Hres, S2. by eexists.
  - done.
Qed.
Lemma resolvable_perm l1 l2 :
  l1 ≡ₚ l2 → resolvable ibmi_files l1 → resolvable ibmi_files l2.
Proof.
  intros Hperm H D HD HDd.
  destruct (H D) as (p & ? & Hin & ?); [by rewrite Hperm | done |].
  exists p. split_and!; [done | | done].
  destruct Hin; [by left | right; by rewrite <- Hperm].
Qed.

(** In a resolvable tree the loop finds the parent's entry at every
    directory it reaches. *)
Lemma resolvable_parent_ready subdirs :
  resolvable ibmi_files subdirs → parent_ready ibmi_files iproj subdirs.
Proof.
  intros Hres before D after Hsplit HD.
  pose proof (sort_by_depth_ordered subdirs) as Hord.
  apply (resolvable_perm subdirs (sort_by nparts subdirs)) in Hres;
    [|by rewrite sort_by_perm].
  rewrite Hsplit in Hord, Hres.
  assert ((before ++ D :: after)%list = ((before ++ [D]) ++ after)%list) as Hre
    by by rewrite <- app_assoc.
  rewrite Hre in Hord, Hres. unfold depth_ordered in Hord.
  assert (depth_ordered (before ++ [D])) as Hord'
    by by eapply StronglySorted_app_1_l.
  assert (resolvable ibmi_files (before ++ [D])) as Hres'.
  { intros E HE HEd.
    destruct (Hres E) as (p & Hp & Hin & Hwf); [apply elem_of_app; by left | done |].
    exists p. split_and!; [done | | done].
    destruct Hin as [?|[?|Hafter]%elem_of_app]; [by left | by right |].
    pose proof (StronglySorted_app_1_elem_of _ _ _ E p Hord HE Hafter) as Hle.
    simpl in Hle. apply parent0_nparts in Hp. lia. }
  apply resolve_in_order_is_Some in Hres' as [m Hm]; [|done].
  rewrite resolve_in_order_snoc in Hm.
  destruct (resolve_in_order ibmi_files iproj before) as [m0|]; simpl in Hm; [|done].
  assert (is_Some (map_ibmi_json_var ibmi_files m0 D)) as HS by by eexists.
  apply step_is_Some in HS as (p & Hp & Hlk & _); [|done].
  by exists m0, p.
Qed.
End Loop.

(** The variable file is written only after the directories of the rule
    files have been resolved. *)
Lemma create_build_vars_resolves (objlib_to_path : string → string)
    (ibmi_files : Path → IbmiJson) (read_text : Path → string)
    (self : BuildEnv) (rules_mks : list Path) (text : string) :
  create_build_vars objlib_to_path ibmi_files read_text self rules_mks = Some text →
  ∃ subdirs m, mapM parent0 rules_mks = Some subdirs
    ∧ resolve ibmi_files (iproj_json self) subdirs = Some m.
Proof.
  unfold create_build_vars, resolve.
  destruct (mapM parent0 rules_mks) as [subdirs|]; simpl; [|done].
  destruct (resolve_in_order _ _ _) as [m|] eqn:Hm; simpl; [|done].
  intros _. by exists subdirs, m.
Qed.

(** C1. Whenever the resolution completes with a map: the root holds the
    project descriptor's (objlib, tgtCcsid); every other discovered
    directory has a parent with an entry, and holds that entry verbatim
    when it has no override file, or field by field the override's value
    where declared and the parent's otherwise. *)
Theorem cascade_correct (ibmi_files : Path → IbmiJson) (iproj : IProj)
    (subdirs : list Path) (m : gmap Path DirVars) :
  resolve ibmi_files iproj subdirs = Some m →
  m !! dot = Some (objlib iproj, tgtCcsid iproj)
  ∧ ∀ D, D ∈ subdirs → D ≠ dot →
      ∃ parent pv, parent0 D = Some parent ∧ m !! parent = Some pv
        ∧ match ibmi_files (joinpath D ".ibmi.json") with
          | NoFile => m !! D = Some pv
          | Override o c => m !! D = Some (default pv.1 o, default pv.2 c)
          | Malformed => False
          end.
Proof.
  intros Hrun. apply resolve_in_order_cascaded in Hrun as (Hroot & Hcasc & _);
    [|apply sort_by_depth_ordered].
  split; [done|]. intros D HD HDd.
  destruct (Hcasc D) as (p & pv & v & Hp & Hpv & Hv & HmD);
    [by rewrite sort_by_perm | done |].
  exists p, pv. split_and!; [done | done |].
  destruct (ibmi_files _); simpl in Hv; [| done |]; by injection Hv as <-.
Qed.

(** C1 on the cascade example: the root and [sub1] hold (LIBA, 37),
    [sub1/sub2] holds (LIBA, 1208). *)
Lemma cascade_correct_example :
  cascade_map !! dot = Some ("LIBA", "37")
  ∧ ∀ D, D ∈ [sub2; sub1] → D ≠ dot →
      ∃ parent pv, parent0 D = Some parent ∧ cascade_map !! parent = Some pv
        ∧ match cascade_files (joinpath D ".ibmi.json") with
          | NoFile => cascade_map !! D = Some pv
          | Override o c => cascade_map !! D = Some (default pv.1 o, default pv.2 c)
          | Malformed => False
          end.
Proof.
  apply (cascade_correct cascade_files cascade_iproj [sub2; sub1] cascade_map).
  vm_compute. reflexivity.
Defined.

(** C6 fails as stated: with a rule file in [a/b] and none in [a], the
    loop reaches [a/b] while the map holds no entry for [a]. *)
Lemma orphan_not_ready :
  ¬ parent_ready (λ _, NoFile) cascade_iproj [orphan].
Proof.
  intros H. destruct (H [] orphan [] eq_refl) as (m & p & Hm & Hp & Hlk); [done|].
  injection Hm as <-. injection Hp as <-. by destruct Hlk as [v Hv].
Qed.

(** C6 (as the code has it). The directories are processed in
    non-decreasing depth, the processing order being a rearrangement of
    the discovered ones. The resolution completes exactly when every
    discovered directory other than the root has the root or another
    discovered directory as its parent, and an override file that
    parses if it has one; then the parent's entry is in the map whenever
    a directory is reached. Every order of the same directories that
    respects non-decreasing depth ends as the order of the code does:
    with the same map, or with an exception as well. *)
Theorem depth_order_resolution (ibmi_files : Path → IbmiJson) (iproj : IProj)
    (subdirs : list Path) :
  depth_ordered (sort_by nparts subdirs)
  ∧ sort_by nparts subdirs ≡ₚ subdirs
  ∧ (is_Some (resolve ibmi_files iproj subdirs) ↔ resolvable ibmi_files subdirs)
  ∧ (resolvable ibmi_files subdirs → parent_ready ibmi_files iproj subdirs)
  ∧ (∀ order, order ≡ₚ subdirs → depth_ordered order →
       resolve_in_order ibmi_files iproj order = resolve ibmi_files iproj subdirs).
Proof.
  split_and!.
  - apply sort_by_depth_ordered.
  - apply sort_by_perm.
  - unfold resolve. rewrite resolve_in_order_is_Some by apply sort_by_depth_ordered.
    split; apply resolvable_perm; by rewrite sort_by_perm.
  - apply resolvable_parent_ready.
  - intros order Hperm Hord. apply resolve_in_order_perm;
      [by rewrite sort_by_perm | done | apply sort_by_depth_ordered].
Qed.

(** C6 on the cascade example, the deeper directory listed first. *)
Lemma depth_order_example :
  parent_ready cascade_files cascade_iproj [sub2; sub1]
  ∧ resolve cascade_files cascade_iproj [sub2; sub1] = Some cascade_map.
Proof.
  destruct (depth_order_resolution cascade_files cascade_iproj [sub2; sub1])
    as (_ & _ & Hiff & Hready & _).
  split; [|vm_compute; reflexivity].
  apply Hready, Hiff. exists cascade_map. vm_compute. reflexivity.
Defined.

End ResolutionFacts.


(** ** Facts about the rule scanner *)

Module ScannerFacts.
Import PyStr PyPath Build PyStrFacts ResolutionFacts.

Lemma has_char_app (c : ascii) (a b : string) :
  has_char c (a ++ b) ↔ has_char c a ∨ has_char c b.
Proof. induction a as [|x a IH]; simpl; [tauto | rewrite IH; tauto]. Qed.

Lemma trimmed_iff (line t : string) : trimmed line t ↔ t = rstrip line.
Proof.
  split.
  - intros (ws & -> & Hws & Ht). symmetry. by apply rstrip_unique.
  - intros ->. destruct (rstrip_split line) as (ws & Hline & Hws).
    exists ws. split_and!; [done | done | apply rstrip_ends_nonspace].
Qed.

Lemma before_first_iff (sep : ascii) (t id : string) :
  before_first sep t id ↔ id = item0 (split sep t).
Proof.
  split.
  - intros [Hno [->|[rest ->]]].
    + destruct (split_head_prefix sep t) as [[_ ?]|[rest Hrest]]; [done|].
      exfalso. apply Hno. rewrite Hrest. apply has_char_app. right. by left.
    + symmetry. by apply split_head_unique.
  - intros ->. split; [apply split_head_no_sep|].
    destruct (split_head_prefix sep t) as [[_ ?]|?]; [by left | by right].
Qed.

Lemma is_target_line_iff (t : string) :
  is_target_line t = true ↔ target_declaration t.
Proof.
  unfold is_target_line, target_declaration, startswith_any. simpl.
  rewrite !andb_true_iff, !negb_true_iff, orb_false_r, orb_false_iff.
  rewrite String.eqb_neq.
  change "=" with (chr "="). change "#" with (chr "#"). change " " with (chr " ").
  assert (∀ c, startswith t (chr c) = false ↔ ∀ rest, t ≠ String c rest) as Hstart.
  { intros c. rewrite <- not_true_iff_false, startswith_chr. split.
    - intros Hno rest ->. apply Hno. by exists rest.
    - intros Hno [rest ->]. by apply (Hno rest). }
  rewrite !Hstart, <- not_true_iff_false, str_in_chr. unfold chr. simpl. tauto.
Qed.

(** *** The loops *)

Lemma scan_lines_spec (cwd rules_mk dir : Path) (out : list Assign) (lines : list string) :
  parent0 rules_mk = Some dir →
  for_each (scan_line cwd rules_mk) out lines =
  Some (out ++ map (owned_by cwd dir)
          (omap (λ line, let t := rstrip line in
                         if is_target_line t then Some (item0 (split ":" t)) else None)
                lines))%list.
Proof.
  intros Hdir. revert out. induction lines as [|line lines IH]; intros out.
  - simpl. by rewrite app_nil_r.
  - rewrite for_each_cons.
    assert (scan_line cwd rules_mk out line =
            Some (if is_target_line (rstrip line)
                  then out ++ [owned_by cwd dir (item0 (split ":" (rstrip line)))]
                  else out)%list) as ->.
    { unfold scan_line. destruct (is_target_line (rstrip line)); [|done].
      by rewrite Hdir. }
    cbn [mbind option_bind omap list_omap]. rewrite IH.
    destruct (is_target_line (rstrip line)); [|done]. by rewrite <- app_assoc.
Qed.

Lemma scan_rules_mk_spec cwd read_text out rules_mk :
  is_Some (parent0 rules_mk) →
  scan_rules_mk cwd read_text out rules_mk =
  Some (out ++ found_in cwd read_text rules_mk)%list.
Proof.
  intros [dir Hdir]. unfold scan_rules_mk, found_in. rewrite Hdir.
  by apply scan_lines_spec.
Qed.


Lemma elem_of_declared (content id : string) :
  id ∈ declared content ↔
  ∃ line t, line ∈ readlines content ∧ trimmed line t ∧ target_declaration t
            ∧ before_first ":" t id.
Proof.
  unfold declared. rewrite list_elem_of_omap. split.
  - intros (line & Hline & Hid). simpl in Hid.
    destruct (is_target_line (rstrip line)) eqn:Ht; [|done]. injection Hid as <-.
    exists line, (rstrip line). split_and!;
      [done | by apply trimmed_iff | by apply is_target_line_iff | by apply before_first_iff].
  - intros (line & t & Hline & ->%trimmed_iff & Ht%is_target_line_iff & ->%before_first_iff).
    exists line. split; [done|]. simpl. by rewrite Ht.
Qed.

(** *** Reading the assignments back *)




Lemma elem_of_found_in cwd read_text mk a :
  a ∈ found_in cwd read_text mk ↔
  ∃ dir id, parent0 mk = Some dir ∧ id ∈ declared (read_text mk)
            ∧ a = owned_by cwd dir id.
Proof.
  unfold found_in. destruct (parent0 mk) as [dir|].
  - rewrite list_elem_of_fmap. split.
    + intros (id & -> & Hid). by exists dir, id.
    + intros (? & id & [= <-] & Hid & ->). by exists id.
  - rewrite elem_of_nil. split; [done | by intros (? & ? & ? & _)].
Qed.



(** C2. The scan of one rule file in directory [dir] records exactly the
    lines that, once their trailing whitespace is trimmed, are not empty,
    do not start with the comment marker, a space or a tab, and hold no
    assignment operator; each is recorded under what stands before its
    first colon, with the absolute path of [dir] as owner. For the lines
    [FOO: bar.c], an indented recipe line, a comment and [VAR = value]
    only FOO is recorded. *)
Theorem rule_scanner_classification (cwd : Path) (read_text : Path → string)
    (rules_mk dir : Path) :
  parent0 rules_mk = Some dir →
  ∃ found, scan_rules_mk cwd read_text [] rules_mk = Some found
    ∧ (∀ a, a ∈ found ↔
         ∃ line t id, line ∈ readlines (read_text rules_mk)
           ∧ trimmed line t ∧ target_declaration t ∧ before_first ":" t id
           ∧ a = (id ++ "_d", path_str (absolute cwd dir)))
    ∧ (read_text rules_mk = rules_example →
       found = [("FOO_d", path_str (absolute cwd dir))]).
Proof.
  intros Hdir. exists (found_in cwd read_text rules_mk). split_and!.
  - by rewrite scan_rules_mk_spec.
  - intros a. rewrite elem_of_found_in. split.
    + intros (d & id & Hd & (line & t & ? & ? & ? & ?)%elem_of_declared & ->).
      assert (d = dir) as -> by congruence. by exists line, t, id.
    + intros (line & t & id & ? & ? & ? & ? & ->). exists dir, id.
      split_and!; [done | | done]. apply elem_of_declared. by exists line, t.
  - intros Htext. unfold found_in. by rewrite Hdir, Htext.
Qed.

(** C2 on the example rule file, in directory [a] of [/w]. *)
Lemma rule_scanner_example :
  ∃ found, scan_rules_mk work (λ _, rules_example) [] rules_a = Some found
    ∧ (∀ a, a ∈ found ↔
         ∃ line t id, line ∈ readlines rules_example
           ∧ trimmed line t ∧ target_declaration t ∧ before_first ":" t id
           ∧ a = (id ++ "_d", path_str (absolute work (mkPath false ["a"]))))
    ∧ (rules_example = rules_example →
       found = [("FOO_d", path_str (absolute work (mkPath false ["a"])))]).
Proof.
  apply (rule_scanner_classification work (λ _, rules_example) rules_a
           (mkPath false ["a"])).
  reflexivity.
Defined.




End ScannerFacts.


(** ** Facts about the session: normalizer, cleanup, make command *)

Module SessionFacts.
Import PyStr PyPath Build PyStrFacts ResolutionFacts.

(** *** The normalizer *)

Lemma cwd_pattern_nonempty (cwd : Path) : path_str cwd ++ "/" ≠ "".
Proof. by destruct (path_str cwd). Qed.

Lemma normalize_unchanged_iff (cwd : Path) (text : string) :
  normalize cwd text = text ↔ str_in (path_str cwd ++ "/") text = false.
Proof. apply replace_fixpoint, cwd_pattern_nonempty. Qed.

(** C4 fails as stated: in [/a] the text [//a/a/] becomes [/a/], which a
    second pass empties. *)
Lemma normalize_twice_differs :
  normalize (mkPath true ["a"]) (normalize (mkPath true ["a"]) "//a/a/")
  ≠ normalize (mkPath true ["a"]) "//a/a/".
Proof. vm_compute. discriminate. Qed.

(** C4 (as the code has it). Normalizing a second time changes nothing
    exactly when the text normalized once holds no occurrence of the
    source root followed by the separator; a text that holds no
    occurrence is left as it is by the first pass already. *)
Theorem normalize_idempotent_iff (cwd : Path) (text : string) :
  (normalize cwd (normalize cwd text) = normalize cwd text
   ↔ str_in (path_str cwd ++ "/") (normalize cwd text) = false)
  ∧ (str_in (path_str cwd ++ "/") text = false → normalize cwd text = text).
Proof. split; apply normalize_unchanged_iff. Qed.

(** *** Files *)






Lemma unlink_missing (fs : FS) (p : Path) : fs !! p = None → unlink fs p = None.
Proof. unfold unlink. by intros ->. Qed.






(** C5 with an engine that exits with status 2. *)
Lemma failed_build_normalized :
  make failing_engine work_env ∅ = Some {[event_a := "FILEID src/a.c inc/a.h"]}.
Proof. vm_compute. reflexivity. Qed.

(** *** Cleanup *)

Lemma BuildEnv_del_removes (self : BuildEnv) (fs fs' : FS) :
  BuildEnv_del self fs = Some fs' → fs' !! build_vars_path self = None.
Proof.
  unfold BuildEnv_del, unlink. destruct (fs !! build_vars_path self); [|done].
  intros [= <-]. apply lookup_delete_eq.
Qed.

Lemma BuildEnv_del_missing (self : BuildEnv) (fs : FS) :
  fs !! build_vars_path self = None → BuildEnv_del self fs = None.
Proof. apply unlink_missing. Qed.

(** C8. Cleanup with the variable file already gone: [__del__] raises
    (its [unlink] has no guard), where the removal of an absent log file
    in [make] is guarded and does nothing. A first [__del__] removes the
    file, a second one on the same session raises. *)
Theorem del_raises_once_removed :
  BuildEnv_del work_env {[tmp_vars := "curlib := X"]} = Some ∅
  ∧ BuildEnv_del work_env ∅ = None
  ∧ remove_if_exists ∅ (joblog work_env) = Some ∅.
Proof. split_and!; vm_compute; reflexivity. Qed.

(** *** The make command *)

Lemma endswith_go_app (a b : string) : endswith_go (String.length a) (a ++ b) b = true.
Proof. induction a as [|x a IH]; simpl; [apply String.eqb_refl | done]. Qed.

Lemma endswith_app (a b : string) : endswith (a ++ b) b = true.
Proof.
  unfold endswith. rewrite length_append.
  replace (String.length a + String.length b - String.length b) with (String.length a) by lia.
  apply endswith_go_app.
Qed.

Lemma str_in_middle (a n b : string) : str_in n (a ++ n ++ b) = true.
Proof. apply str_in_iff. by exists a, b. Qed.

(** C9. The command of an environment: [make] with the variable file, the
    engine root and the engine's makefile, each quoted, then the options
    when there are any, then the targets joined by spaces in their order.
    An environment initialised without targets has the list [all]; one
    initialised without options, or with empty ones, has none; its
    makefile is [mk/Makefile] below the engine root. *)
Theorem make_cmd_composition (self : BuildEnv) :
  let q := chr dquote in
  let vars_arg := "BUILDVARSMKPATH=" ++ q ++ path_str (build_vars_path self) ++ q in
  let bob_arg := "BOB=" ++ q ++ path_str (bob_path self) ++ q in
  let file_arg := "-f " ++ q ++ path_str (bob_makefile self) ++ q in
  let options_part :=
    if String.eqb (make_options self) "" then "" else " " ++ make_options self in
  generate_make_cmd self =
    "make -k " ++ vars_arg ++ " -k " ++ bob_arg ++ " " ++ file_arg
      ++ options_part ++ " " ++ join " " (targets self)
  ∧ str_in vars_arg (generate_make_cmd self) = true
  ∧ str_in bob_arg (generate_make_cmd self) = true
  ∧ str_in file_arg (generate_make_cmd self) = true
  ∧ endswith (generate_make_cmd self) (" " ++ join " " (targets self)) = true
  ∧ (∀ cwd BOB_PATH tmp iproj tty tgts opts overrides,
       let init := BuildEnv_init cwd BOB_PATH tmp iproj tty tgts opts overrides in
       targets init = default ["all"] tgts
       ∧ make_options init = default "" opts
       ∧ build_vars_path init = tmp
       ∧ bob_path init = default BOB_PATH (default ∅ overrides !! "bob_path")
       ∧ bob_makefile init = joinpath (joinpath (bob_path init) "mk") "Makefile").
Proof.
  intros q vars_arg bob_arg file_arg options_part.
  assert (generate_make_cmd self =
    "make -k " ++ vars_arg ++ " -k " ++ bob_arg ++ " " ++ file_arg
      ++ options_part ++ " " ++ join " " (targets self)) as Hcmd.
  { unfold generate_make_cmd. fold q.
    unfold vars_arg, bob_arg, file_arg, options_part.
    destruct (String.eqb (make_options self) "");
      repeat (progress (rewrite ?append_assoc; simpl)); reflexivity. }
  split_and!.
  - done.
  - rewrite Hcmd. apply (str_in_middle "make -k ").
  - rewrite Hcmd. rewrite <- (append_assoc "make -k " vars_arg).
    rewrite <- (append_assoc _ " -k "). apply str_in_middle.
  - rewrite Hcmd. rewrite <- (append_assoc "make -k " vars_arg).
    rewrite <- (append_assoc _ " -k "), <- (append_assoc _ bob_arg).
    rewrite <- (append_assoc _ " "). apply str_in_middle.
  - rewrite Hcmd. rewrite <- !append_assoc. rewrite append_assoc. apply endswith_app.
  - intros cwd BOB_PATH tmp iproj tty tgts opts overrides init. split_and!.
    + by destruct tgts.
    + destruct opts as [o|]; simpl; [|done].
      by destruct (String.eqb_spec o "").
    + done.
    + done.
    + done.
Qed.

(** C9 on the session in [/w]. *)
Lemma make_cmd_example :
  generate_make_cmd work_env =
  "make -k BUILDVARSMKPATH=" ++ chr dquote ++ "/tmp/tmpb0b" ++ chr dquote
    ++ " -k BOB=" ++ chr dquote ++ "/opt/bob" ++ chr dquote
    ++ " -f " ++ chr dquote ++ "/opt/bob/mk/Makefile" ++ chr dquote ++ " all".
Proof. vm_compute. reflexivity. Qed.

End SessionFacts.

(** ** Further facts: the tables *)

Module TargetTableFacts.
Import PyStr Const.

(** [split] yields one field more than there are separators. *)
Lemma length_split (sep : ascii) (s : string) :
  length (split sep s) = S (count_char sep s).
Proof.
  induction s as [|c s IH]; [done|]. simpl.
  destruct (Ascii.eqb c sep); simpl; [by rewrite IH|].
  destruct (split sep s); simpl in *; congruence.
Qed.

Lemma file_targets_have_groups :
  map_Forall (λ _ tgt, ∃ group, TARGET_TARGETGROUPS_MAPPING !! tgt = Some group
                                ∧ group ∈ TARGET_GROUPS) FILE_TARGET_MAPPING.
Proof.
  apply map_Forall_to_list. vm_compute.
  repeat (apply Forall_cons; split;
          [eexists; split; [reflexivity | set_solver] |]).
  apply Forall_nil_2.
Qed.

(** X14. The target type an extension maps to always has a target group, and
    that group is one of [TARGET_GROUPS]. *)
Theorem file_target_has_group (ext tgt : string) :
  FILE_TARGET_MAPPING !! ext = Some tgt →
  ∃ group, target_targetgroup tgt = Some group ∧ group ∈ TARGET_GROUPS.
Proof. intros H. exact (map_Forall_lookup_1 _ _ _ _ file_targets_have_groups H). Qed.

Lemma file_target_has_group_example :
  ∃ group, target_targetgroup "FILE" = Some group ∧ group ∈ TARGET_GROUPS.
Proof. apply (file_target_has_group "DSPF" "FILE"). vm_compute. reflexivity. Defined.

Lemma ext_parts_bounded :
  map_Forall (λ ext _, (length (split "." ext) ≤ 2)%nat) FILE_TARGET_MAPPING.
Proof.
  apply map_Forall_to_list. vm_compute.
  repeat (apply Forall_cons; split; [lia |]). apply Forall_nil_2.
Qed.

(** X15. [FILE_MAX_EXT_LENGTH] is 2: no extension of [FILE_TARGET_MAPPING] has
    more than two dot-separated parts (more than one dot), and
    [PGM.SQLRPGLE] has two. *)
Theorem file_max_ext_length :
  FILE_MAX_EXT_LENGTH = Some 2
  ∧ (∀ ext tgt, FILE_TARGET_MAPPING !! ext = Some tgt →
       (length (split "." ext) ≤ 2)%nat ∧ (count_char "." ext ≤ 1)%nat)
  ∧ is_Some (FILE_TARGET_MAPPING !! "PGM.SQLRPGLE")
  ∧ length (split "." "PGM.SQLRPGLE") = 2.
Proof.
  split_and!.
  - vm_compute. reflexivity.
  - intros ext tgt H.
    pose proof (map_Forall_lookup_1 _ _ _ _ ext_parts_bounded H) as Hle.
    simpl in Hle. split; [done|]. rewrite length_split in Hle. lia.
  - vm_compute. by eexists.
  - reflexivity.
Qed.

End TargetTableFacts.

(** ** Further facts: the directory map *)

Module DirectoryMapFacts.
Import PyStr PyPath Build PyStrFacts ResolutionFacts.

(** *** The sort of line 76 *)

Lemma filter_insert_by {A} (key : A → nat) (n : nat) (x : A) (l : list A) :
  filter (λ y, key y = n) (insert_by key x l) = filter (λ y, key y = n) (x :: l).
Proof.
  induction l as [|y l IH]; [reflexivity|].
  change (insert_by key x (y :: l))
    with (if (key x <=? key y)%nat then x :: y :: l else y :: insert_by key x l).
  destruct (Nat.leb_spec (key x) (key y)) as [Hle|Hlt]; [reflexivity|].
  rewrite (filter_cons _ y), IH, !filter_cons.
  repeat case_decide; (done || lia).
Qed.

Lemma insert_by_head {A} (key : A → nat) (x : A) (l : list A) :
  Forall (λ y, key x ≤ key y)%nat l → insert_by key x l = x :: l.
Proof.
  destruct 1 as [|y l Hy _]; [done|]. simpl.
  by destruct (Nat.leb_spec (key x) (key y)); [|lia].
Qed.

(** X3. The sort keeps the listing order among directories of equal depth,
    and leaves a list that is already in depth order as it is. *)
Theorem sort_by_depth_stable (subdirs : list Path) :
  (∀ n, filter (λ p, nparts p = n) (sort_by nparts subdirs)
        = filter (λ p, nparts p = n) subdirs)
  ∧ (depth_ordered subdirs → sort_by nparts subdirs = subdirs).
Proof.
  split.
  - intros n. induction subdirs as [|x l IH]; [done|]. simpl.
    rewrite filter_insert_by, !filter_cons, IH. done.
  - unfold depth_ordered. induction 1 as [|x l Hl IH Hx]; [done|]. simpl.
    rewrite IH. by apply insert_by_head.
Qed.

(** *** The directory map *)

Section Map.
Variable ibmi_files : Path → IbmiJson.
Variable iproj : IProj.

Lemma resolve_cascaded subdirs m :
  resolve ibmi_files iproj subdirs = Some m → cascaded ibmi_files iproj subdirs m.
Proof.
  intros Hrun. apply resolve_in_order_cascaded in Hrun as (Hroot & Hcasc & Hdom);
    [|apply sort_by_depth_ordered].
  split_and!; [done | |].
  - intros D HD. apply Hcasc. by rewrite sort_by_perm.
  - intros k Hk. destruct (Hdom k Hk) as [?|Hin]; [by left | right].
    by rewrite sort_by_perm in Hin.
Qed.

End Map.

(** X1. A completed resolution leaves one entry for the root and one for
    every discovered directory, and no other. *)
Theorem resolve_dom (ibmi_files : Path → IbmiJson) (iproj : IProj)
    (subdirs : list Path) (m : gmap Path DirVars) :
  resolve ibmi_files iproj subdirs = Some m →
  dom m = {[dot]} ∪ list_to_set subdirs.
Proof.
  intros Hc%resolve_cascaded. apply set_eq. intros k.
  rewrite elem_of_dom, elem_of_union, elem_of_singleton, elem_of_list_to_set.
  split.
  - destruct Hc as (_ & _ & Hdom). apply Hdom.
  - by apply (cascaded_lookup ibmi_files iproj subdirs).
Qed.

Lemma resolve_dom_example :
  dom cascade_map = {[dot]} ∪ list_to_set [sub2; sub1].
Proof.
  apply (resolve_dom cascade_files cascade_iproj). vm_compute. reflexivity.
Defined.

Lemma lineage_parent (D p : Path) : parent0 D = Some p → lineage D = D :: lineage p.
Proof.
  unfold parent0, lineage. destruct D as [a sg]; simpl.
  destruct sg as [|x sg _] using rev_ind; [done|].
  destruct (sg ++ [x])%list eqn:E; [by destruct sg|]. rewrite <- E.
  intros [= <-]. cbn [anchored segs]. rewrite removelast_last, rev_unit.
  cbn [chain]. by rewrite <- rev_unit, rev_involutive.
Qed.

(** X2. The entry of a directory depends only on the override files of the
    directory itself and of the directories above it: two trees that
    agree on these resolve it alike, whatever they hold elsewhere. *)
Theorem resolve_local (files1 files2 : Path → IbmiJson) (iproj : IProj)
    (subdirs : list Path) (m1 m2 : gmap Path DirVars) (D : Path) :
  resolve files1 iproj subdirs = Some m1 →
  resolve files2 iproj subdirs = Some m2 →
  Forall (λ A, files1 (joinpath A ".ibmi.json") = files2 (joinpath A ".ibmi.json"))
         (lineage D) →
  m1 !! D = m2 !! D.
Proof.
  intros (Hr1 & Hc1 & Hd1)%resolve_cascaded (Hr2 & Hc2 & Hd2)%resolve_cascaded.
  remember (nparts D) as n eqn:Hn. revert D Hn.
  induction n as [n IH] using lt_wf_ind. intros D -> Hsame.
  destruct (decide (D = dot)) as [->|HD]; [congruence|].
  destruct (decide (D ∈ subdirs)) as [Hin|Hout].
  - destruct (Hc1 D Hin HD) as (p1 & pv1 & v1 & Hp1 & Hpv1 & Hv1 & ->).
    destruct (Hc2 D Hin HD) as (p2 & pv2 & v2 & Hp2 & Hpv2 & Hv2 & ->).
    assert (p2 = p1) as -> by congruence.
    rewrite (lineage_parent D p1 Hp1) in Hsame.
    apply Forall_cons in Hsame as [HD12 Hsame].
    assert (m1 !! p1 = m2 !! p1) as Heq.
    { apply (IH (nparts p1)); [apply parent0_nparts in Hp1; lia | done | done]. }
    rewrite Heq in Hpv1. rewrite <- HD12 in Hv2. congruence.
  - destruct (m1 !! D) eqn:H1.
    { destruct (Hd1 D) as [?|?]; [by eexists | done | done]. }
    destruct (m2 !! D) eqn:H2; [exfalso | done].
    destruct (Hd2 D) as [?|?]; [by eexists | done | done].
Qed.

(** The cascade example with one more directory, [other], that overrides
    the library in the second tree only. *)
Lemma resolve_local_example :
  (<[other := ("LIBA", "37")]> cascade_map) !! sub2
  = (<[other := ("LIBB", "37")]> cascade_map) !! sub2.
Proof.
  apply (resolve_local cascade_files other_files cascade_iproj [sub2; other; sub1]).
  - vm_compute. reflexivity.
  - vm_compute. reflexivity.
  - vm_compute. repeat constructor.
Defined.

End DirectoryMapFacts.

(** ** Further facts: the variable file and [__init__] *)

Module WriterFacts.
Import PyStr PyPath Build PyStrFacts ResolutionFacts ScannerFacts.

Section Writer.
Variable objlib_to_path : string → string.
Variable ibmi_files : Path → IbmiJson.
Variable read_text : Path → string.





End Writer.


End WriterFacts.

(** ** Further facts: the lines of a rule file *)

Module LineFacts.
Import PyStr PyPath Build PyStrFacts ResolutionFacts ScannerFacts.

Lemma all_space_app (a b : string) : all_space a → all_space b → all_space (a ++ b).
Proof. intros Ha Hb c [?|?]%has_char_app; [by apply Ha | by apply Hb]. Qed.

(** Whitespace behind a line is invisible to [rstrip]. *)
Lemma rstrip_app_space (line ws : string) :
  all_space ws → rstrip (line ++ ws) = rstrip line.
Proof.
  intros Hws. destruct (rstrip_split line) as (ws0 & Hline & Hws0).
  rewrite Hline at 1. rewrite append_assoc.
  apply rstrip_unique; [by apply all_space_app | apply rstrip_ends_nonspace].
Qed.

Lemma has_char_rstrip (c : ascii) (line : string) :
  has_char c (rstrip line) → has_char c line.
Proof.
  intros H. destruct (rstrip_split line) as (ws & Hline & _).
  rewrite Hline. apply has_char_app. by left.
Qed.

Lemma has_char_split_head (c sep : ascii) (t : string) :
  has_char c (item0 (split sep t)) → has_char c t.
Proof.
  intros H. destruct (split_head_prefix sep t) as [[_ Heq]|[rest Hrest]].
  - by rewrite <- Heq.
  - rewrite Hrest. apply has_char_app. by left.
Qed.

(** A line of [lines_keepends] holds a line feed at its end at most. *)
Lemma lines_keepends_body (s line : string) :
  line ∈ lines_keepends s →
  ∃ body, ¬ has_char nl body ∧ (line = body ∨ line = body ++ chr nl).
Proof.
  revert line. induction s as [|c s IH]; intros line; simpl.
  - by intros ?%elem_of_nil.
  - destruct (Ascii.eqb_spec c nl) as [->|Hc].
    + intros [->|Hin]%elem_of_cons; [|by apply IH].
      exists "". split; [by intros [] | by right].
    + destruct (lines_keepends s) as [|l ls] eqn:E.
      * intros ->%list_elem_of_singleton. exists (chr c). split; [|by left].
        simpl. tauto.
      * intros [->|Hin]%elem_of_cons.
        -- destruct (IH l) as (body & Hno & Hl); [by left|].
           exists (String c body). split; [simpl; tauto|].
           destruct Hl as [->| ->]; [by left | by right].
        -- apply IH. by right.
Qed.

Lemma universal_newlines_cons (c : ascii) (s : string) :
  universal_newlines (String c s) =
  if Ascii.eqb c cr then
    match s with
    | String c' s'' =>
        if Ascii.eqb c' nl then String nl (universal_newlines s'')
        else String nl (universal_newlines s)
    | EmptyString => chr nl
    end
  else String c (universal_newlines s).
Proof. done. Qed.

Lemma universal_newlines_no_cr_upto (n : nat) (s : string) :
  (String.length s ≤ n)%nat → ¬ has_char cr (universal_newlines s).
Proof.
  revert s. induction n as [|n IH]; intros [|c s] Hlen;
    try (by intros []); cbn [String.length] in Hlen; [lia|].
  rewrite universal_newlines_cons. destruct (Ascii.eqb_spec c cr) as [->|Hc].
  - destruct s as [|c' s']; [by intros [?|[]]|].
    destruct (Ascii.eqb_spec c' nl) as [->|Hc'].
    + intros [?|H]; [done|]. revert H. apply IH. cbn [String.length] in Hlen. lia.
    + intros [?|H]; [done|]. revert H. apply IH. lia.
  - intros [?|H]; [done|]. revert H. apply IH. lia.
Qed.

(** Text-mode reading leaves no carriage return. *)
Lemma universal_newlines_no_cr (s : string) : ¬ has_char cr (universal_newlines s).
Proof. by apply (universal_newlines_no_cr_upto (String.length s)). Qed.

Lemma has_char_lines_keepends (c : ascii) (s line : string) :
  line ∈ lines_keepends s → has_char c line → has_char c s.
Proof.
  revert line. induction s as [|x s IH]; intros line; simpl.
  - by intros ?%elem_of_nil.
  - destruct (Ascii.eqb_spec x nl) as [->|Hx].
    + intros [->|Hin]%elem_of_cons; simpl; [tauto|]. right. by eapply IH.
    + destruct (lines_keepends s) as [|l ls] eqn:E.
      * intros ->%list_elem_of_singleton. simpl. tauto.
      * intros [->|Hin]%elem_of_cons; simpl.
        -- intros [?|?]; [by left | right]. apply (IH l); [by left | done].
        -- intros ?. right. apply (IH line); [by right | done].
Qed.

(** X6. The identifiers the scanner records hold no colon, no assignment
    operator, no line feed and no carriage return, and do not start with
    the comment marker, a space or a tab. *)
Theorem declared_identifier_shape (content id : string) :
  id ∈ declared content →
  ¬ has_char ":" id ∧ ¬ has_char "=" id ∧ ¬ has_char nl id ∧ ¬ has_char cr id
  ∧ startswith_any id ["#"; " "; chr tab] = false.
Proof.
  unfold declared. intros (line & Hline & Hid)%list_elem_of_omap.
  simpl in Hid. destruct (is_target_line (rstrip line)) eqn:Ht; [|done].
  injection Hid as <-. pose proof Ht as Hdecl%is_target_line_iff.
  destruct Hdecl as (Hne & Hhash & Hsp & Htab & Heq).
  split_and!.
  - apply split_head_no_sep.
  - intros H%has_char_split_head. done.
  - intros H%has_char_split_head.
    destruct (lines_keepends_body _ _ Hline) as (body & Hno & [Hb|Hb]).
    + apply Hno. apply has_char_rstrip. by rewrite <- Hb.
    + apply Hno. apply has_char_rstrip. rewrite Hb in H.
      rewrite rstrip_app_space in H; [done|].
      intros c [<-|[]]. done.
  - intros H%has_char_split_head%has_char_rstrip.
    apply (universal_newlines_no_cr content).
    by eapply has_char_lines_keepends.
  - destruct (split_head_prefix ":" (rstrip line)) as [[_ Hsame]|[rest Hrest]].
    + rewrite Hsame. unfold startswith_any. simpl. rewrite !orb_false_r.
      rewrite !orb_false_iff. split_and!; apply not_true_iff_false.
      * intros [r Hr]%(startswith_chr _ "#"). by apply (Hhash r).
      * intros [r Hr]%(startswith_chr _ " "). by apply (Hsp r).
      * intros [r Hr]%(startswith_chr _ tab). by apply (Htab r).
    + unfold startswith_any. simpl. rewrite !orb_false_r.
      rewrite !orb_false_iff. split_and!; apply not_true_iff_false.
      * intros [r Hr]%(startswith_chr _ "#"). apply (Hhash (r ++ String ":" rest)).
        rewrite Hrest, Hr. done.
      * intros [r Hr]%(startswith_chr _ " "). apply (Hsp (r ++ String ":" rest)).
        rewrite Hrest, Hr. done.
      * intros [r Hr]%(startswith_chr _ tab). apply (Htab (r ++ String ":" rest)).
        rewrite Hrest, Hr. done.
Qed.

Lemma declared_identifier_example :
  ¬ has_char ":" "FOO" ∧ ¬ has_char "=" "FOO" ∧ ¬ has_char nl "FOO"
  ∧ ¬ has_char cr "FOO" ∧ startswith_any "FOO" ["#"; " "; chr tab] = false.
Proof.
  apply (declared_identifier_shape rules_example "FOO"). vm_compute. by left.
Defined.

Lemma universal_newlines_id (s : string) :
  ¬ has_char cr s → universal_newlines s = s.
Proof.
  induction s as [|c s IH]; [done|]. simpl. intros Hno.
  destruct (Ascii.eqb_spec c cr) as [->|Hc]; [tauto|]. rewrite IH; tauto.
Qed.

Lemma universal_newlines_crlf (s : string) :
  ¬ has_char cr s → universal_newlines (to_crlf s) = s.
Proof.
  induction s as [|c s IH]; [done|]. intros Hno. simpl in Hno.
  cbn [to_crlf]. destruct (Ascii.eqb_spec c nl) as [->|Hc].
  - cbn [universal_newlines]. rewrite !Ascii.eqb_refl. rewrite IH; tauto.
  - cbn [universal_newlines]. destruct (Ascii.eqb_spec c cr) as [->|Hc']; [tauto|].
    rewrite IH; tauto.
Qed.

(** X7. What the scanner records does not depend on whitespace behind a
    line, nor on whether the lines of the rule file end in LF or in
    CR LF. *)
Theorem scan_ignores_line_ends (cwd rules_mk : Path) :
  (∀ out line ws, all_space ws →
     scan_line cwd rules_mk out (line ++ ws) = scan_line cwd rules_mk out line)
  ∧ (∀ content, ¬ has_char cr content →
       declared (to_crlf content) = declared content).
Proof.
  split.
  - intros out line ws Hws. unfold scan_line. by rewrite rstrip_app_space.
  - intros content Hno. unfold declared, readlines.
    by rewrite universal_newlines_crlf, universal_newlines_id.
Qed.

End LineFacts.

(** ** Further facts: the normalizer *)

Module NormalizerFacts.
Import PyStr PyPath Build PyStrFacts ResolutionFacts SessionFacts.

Lemma concat_cons2 (sep x y : string) (l : list string) :
  String.concat sep (x :: y :: l) = x ++ sep ++ String.concat sep (y :: l).
Proof. done. Qed.





(** *** [_post_make] on the files *)





End NormalizerFacts.

(** ** Further facts: the session and the command *)

Module SessionEdgeFacts.
Import PyStr PyPath Build PyStrFacts ResolutionFacts SessionFacts NormalizerFacts.

Section Session.
Variable run_command : string → FS → Z * FS.

End Session.


(** *** The make command at its edges *)

Lemma generate_make_cmd_eq (self : BuildEnv) :
  generate_make_cmd self =
  "make -k BUILDVARSMKPATH=" ++ chr dquote ++ path_str (build_vars_path self)
    ++ chr dquote ++ " -k BOB=" ++ chr dquote ++ path_str (bob_path self)
    ++ chr dquote ++ " -f " ++ chr dquote ++ path_str (bob_makefile self)
    ++ chr dquote
    ++ (if String.eqb (make_options self) "" then "" else " " ++ make_options self)
    ++ " " ++ join " " (targets self).
Proof.
  unfold generate_make_cmd.
  destruct (String.eqb (make_options self) "");
    repeat (progress (rewrite ?append_assoc; simpl)); reflexivity.
Qed.

Lemma concat_snoc (sep x : string) (l : list string) :
  l ≠ [] → String.concat sep (l ++ [x]) = String.concat sep l ++ sep ++ x.
Proof.
  induction l as [|y l IH]; [done|]. intros _. destruct l as [|z l].
  - done.
  - change ((y :: z :: l) ++ [x])%list with (y :: ((z :: l) ++ [x]))%list.
    change ((z :: l) ++ [x])%list with (z :: (l ++ [x]))%list at 1.
    rewrite concat_cons2.
    change (z :: (l ++ [x]))%list with ((z :: l) ++ [x])%list.
    rewrite IH by done. rewrite concat_cons2. by rewrite !append_assoc.
Qed.

(** A path below a directory prints as the directory, a separator and the
    name, except directly below the root or the working directory. *)
Lemma path_str_joinpath (p : Path) (n : string) :
  path_str (joinpath p n) =
  match segs p with
  | [] => if anchored p then "/" ++ n else n
  | _ => path_str p ++ "/" ++ n
  end.
Proof.
  unfold path_str, joinpath, join. destruct p as [a sg]. cbn [anchored segs].
  destruct sg as [|x sg].
  - by destruct a.
  - rewrite concat_snoc by done. destruct a.
    + by rewrite append_assoc.
    + change ((x :: sg) ++ [n])%list with (x :: (sg ++ [n]))%list. done.
Qed.

(** X12. A target list passed empty is kept as it is, not replaced by
    [all]: the command then ends in a blank behind the makefile and the
    options, and names no target. *)
Theorem make_cmd_empty_targets (cwd BOB_PATH tmp : Path) (iproj : IProj)
    (tty : bool) (opts : option string) (overrides : option (gmap string Path)) :
  let self := BuildEnv_init cwd BOB_PATH tmp iproj tty (Some []) opts overrides in
  targets self = []
  ∧ generate_make_cmd self =
    "make -k BUILDVARSMKPATH=" ++ chr dquote ++ path_str tmp ++ chr dquote
      ++ " -k BOB=" ++ chr dquote ++ path_str (bob_path self) ++ chr dquote
      ++ " -f " ++ chr dquote ++ path_str (bob_makefile self) ++ chr dquote
      ++ (if String.eqb (make_options self) "" then ""
          else " " ++ make_options self)
      ++ " ".
Proof. intros self. split; [done|]. by rewrite generate_make_cmd_eq. Qed.

(** X13. The makefile the command names is the engine root followed by
    [/mk/Makefile] for every engine root with at least one segment;
    for the root directory it is [/mk/Makefile], for the working
    directory [mk/Makefile]. *)
Theorem makefile_below_engine_root (cwd BOB_PATH tmp : Path) (iproj : IProj)
    (tty : bool) (tgts : option (list string)) (opts : option string)
    (overrides : option (gmap string Path)) :
  let self := BuildEnv_init cwd BOB_PATH tmp iproj tty tgts opts overrides in
  (segs (bob_path self) ≠ [] →
     path_str (bob_makefile self) = path_str (bob_path self) ++ "/mk/Makefile")
  ∧ (segs (bob_path self) = [] →
     path_str (bob_makefile self)
     = if anchored (bob_path self) then "/mk/Makefile" else "mk/Makefile").
Proof.
  intros self. split.
  - intros Hne. subst self. cbn [bob_makefile bob_path BuildEnv_init] in *.
    rewrite !path_str_joinpath. cbn [joinpath segs anchored].
    destruct (segs (default BOB_PATH (default ∅ overrides !! "bob_path")))
      as [|x sg] eqn:E; [done|].
    destruct (_ ++ ["mk"])%list eqn:E'; [by destruct sg|].
    rewrite append_assoc. done.
  - intros He. subst self. cbn [bob_makefile bob_path BuildEnv_init] in *.
    rewrite !path_str_joinpath. cbn [joinpath segs anchored]. rewrite He.
    cbn [app]. by destruct (anchored _).
Qed.

End SessionEdgeFacts.
